(** * The ftrace-to-proto translation table

    A shallow embedding of [src/ftrace_reader/proto_translation_table.cc]:
    [BuildEventsVector], [ProtoTranslationTable::Create] and the constructor
    [ProtoTranslationTable::ProtoTranslationTable], followed by the properties
    the design document states about the table they build. *)

From Stdlib Require Import NArith Ascii String.
From stdpp Require Import gmap strings list fin_maps.

(** ** Machine integers

    [fields_end], [common_fields_end], [offset] and [size] are [uint16_t] in
    the source, and both running maxima go through [std::max<uint16_t>], whose
    argument [offset + size] is an [int] that is converted back to sixteen
    bits.  Values are kept in [N] and the conversion is written out. *)

Definition to_u16 (x : N) : N := (x mod 65536)%N.

(** ** Data model *)

(** [Field] of event_info.h.  The header is not among the sources: the two
    16-bit members are read off the constructor call [Field{offset, size}]
    (line 109); the enumerations [FtraceFieldType], [ProtoFieldType] and
    [TranslationStrategy] are carried by their integer value. *)
Module Field.
Record t : Type := mk {
  ftrace_offset : N;
  ftrace_size : N;
  ftrace_type : N;
  ftrace_name : string;
  proto_field_id : N;
  proto_field_type : N;
  strategy : N
}.

(** [Field{offset, size}]: every other member value-initialised. *)
Definition common (offset size : N) : t :=
  mk offset size 0%N EmptyString 0%N 0%N 0%N.

Definition set_location (offset size : N) (f : t) : t :=
  mk offset size (ftrace_type f) (ftrace_name f) (proto_field_id f)
     (proto_field_type f) (strategy f).

Definition set_strategy (s : N) (f : t) : t :=
  mk (ftrace_offset f) (ftrace_size f) (ftrace_type f) (ftrace_name f)
     (proto_field_id f) (proto_field_type f) s.

(** One past the last byte of the field, as the source computes it. *)
Definition extent (f : t) : N := to_u16 (ftrace_offset f + ftrace_size f).
End Field.

(** [Event] of event_info.h.  [name] and [group] are C strings; the
    value-initialised [Event] that fills unused slots of the dense array has
    null pointers there, which no code under study dereferences, and is
    modelled with empty strings. *)
Module Event.
Record t : Type := mk {
  name : string;
  group : string;
  fields : list Field.t;
  ftrace_event_id : N;
  proto_field_id : N;
  size : N
}.

Definition default : t := mk EmptyString EmptyString [] 0%N 0%N 0%N.
End Event.

(** [FtraceEvent], the descriptor filled in by [ParseFtraceEvent]. *)
Module FtraceEvent.
Module Field.
Record t : Type := mk {
  type_and_name : string;
  offset : N;
  size : N
}.
End Field.

Record t : Type := mk {
  id : N;
  common_fields : list Field.t;
  fields : list Field.t
}.
End FtraceEvent.

(** The table object: the dense vector [events_], [largest_id_], the common
    fields, and [name_to_event_].  The map holds pointers into [events_]; a
    pointer [&events_.at(i)] is represented by the slot number [i], so two
    references are the same entry exactly when the slot numbers agree. *)
Record ProtoTranslationTable : Type := mkTable {
  events_ : list Event.t;
  largest_id_ : N;
  common_fields_ : list Field.t;
  name_to_event_ : gmap string nat
}.

(** ** BuildEventsVector (lines 32-45) *)

Definition largest_id_of (events : list Event.t) : N :=
  fold_left
    (fun largest_id event =>
       if (largest_id <? Event.ftrace_event_id event)%N
       then Event.ftrace_event_id event else largest_id)
    events 0%N.

Definition place_events (events : list Event.t) (events_by_id : list Event.t)
  : list Event.t :=
  fold_left
    (fun by_id event => <[N.to_nat (Event.ftrace_event_id event) := event]> by_id)
    events events_by_id.

Definition BuildEventsVector (events : list Event.t) : list Event.t :=
  let largest_id := largest_id_of events in
  let events_by_id := replicate (N.to_nat (largest_id + 1)) Event.default in
  place_events events events_by_id.

(** ** The constructor (lines 129-137) *)

Definition index_names (events : list Event.t) : gmap string nat :=
  fold_left
    (fun m event =>
       <[Event.name event := N.to_nat (Event.ftrace_event_id event)]> m)
    events ∅.

Definition new_ProtoTranslationTable
    (events : list Event.t) (common_fields : list Field.t)
  : ProtoTranslationTable :=
  let by_id := BuildEventsVector events in
  {| events_ := by_id;
     largest_id_ := (N.of_nat (length by_id) - 1)%N;
     common_fields_ := common_fields;
     name_to_event_ := index_names events |}.

(** ** Create (lines 50-127) *)

(** State carried around the loop over the catalog. *)
Record Captured : Type := mkCaptured {
  common_fields : list Field.t;
  common_fields_end : N
}.

Definition no_common_fields : Captured := mkCaptured [] 0%N.

(** Lines 105-112: append every common field of the descriptor. *)
Definition capture_common_fields
    (st : Captured) (ftrace_common : list FtraceEvent.Field.t) : Captured :=
  fold_left
    (fun st ftrace_field =>
       let offset := to_u16 (FtraceEvent.Field.offset ftrace_field) in
       let size := to_u16 (FtraceEvent.Field.size ftrace_field) in
       mkCaptured (common_fields st ++ [Field.common offset size])
                  (N.max (common_fields_end st) (to_u16 (offset + size))))
    ftrace_common st.

(** Lines 104-113: the capture happens only while [common_fields] is empty. *)
Definition after_capture (st : Captured) (ftrace_event : FtraceEvent.t)
  : Captured :=
  match common_fields st with
  | [] => capture_common_fields st (FtraceEvent.common_fields ftrace_event)
  | _ :: _ => st
  end.

(** The post-pass predicate handed to [std::remove_if] (lines 118-121). *)
Definition unusable (event : Event.t) : bool :=
  (Event.proto_field_id event =? 0)%N || (Event.ftrace_event_id event =? 0)%N.

Section Builder.

(** The collaborators, none of which is defined in this translation unit:
    [FtraceProcfs::ReadEventFormat]; [ParseFtraceEvent], which returns
    [false] or fills a descriptor; [GetNameFromTypeAndName]; and
    [SetTranslationStrategy], which returns [false] or a strategy. *)
Variable ReadEventFormat : string -> string -> string.
Variable ParseFtraceEvent : string -> option FtraceEvent.t.
Variable GetNameFromTypeAndName : string -> string.
Variable SetTranslationStrategy : N -> N -> option N.

(** Lines 73-96, the scan of the kernel fields for one catalog field.
    Result: the field as left by the loop body, [fields_end], [success]. *)
Fixpoint scan_ftrace_fields
    (ftrace_fields : list FtraceEvent.Field.t)
    (field : Field.t) (fields_end : N) : Field.t * N * bool :=
  match ftrace_fields with
  | [] => (field, fields_end, false)
  | ftrace_field :: rest =>
      if negb (String.eqb
                 (GetNameFromTypeAndName
                    (FtraceEvent.Field.type_and_name ftrace_field))
                 (Field.ftrace_name field))
      then scan_ftrace_fields rest field fields_end
      else
        let field :=
          Field.set_location
            (to_u16 (FtraceEvent.Field.offset ftrace_field))
            (to_u16 (FtraceEvent.Field.size ftrace_field)) field in
        let fields_end := N.max fields_end (Field.extent field) in
        match SetTranslationStrategy
                (Field.ftrace_type field) (Field.proto_field_type field) with
        | Some s => (Field.set_strategy s field, fields_end, true)
        | None => (field, fields_end, false)
        end
  end.

(** Lines 70-102, the loop over the catalog fields of one event: a field is
    kept (iterator advanced) on [success] and erased otherwise, after which
    the iterator, left where it was, designates the next field. *)
Fixpoint merge_fields
    (ftrace_fields : list FtraceEvent.Field.t)
    (fields : list Field.t) (fields_end : N) : list Field.t * N :=
  match fields with
  | [] => ([], fields_end)
  | field :: rest =>
      let '(field', fields_end, success) :=
        scan_ftrace_fields ftrace_fields field fields_end in
      let '(kept, fields_end) := merge_fields ftrace_fields rest fields_end in
      (if success then field' :: kept else kept, fields_end)
  end.

(** Lines 62-67: the descriptor of a catalog event, if the kernel has one. *)
Definition read_descriptor (event : Event.t) : option FtraceEvent.t :=
  let contents := ReadEventFormat (Event.group event) (Event.name event) in
  if String.eqb contents "" then None else ParseFtraceEvent contents.

(** One iteration of the loop over the catalog (lines 56-115).  The
    [PERFETTO_DCHECK]s of lines 57-60 and 78-82 record what the caller owes
    (names and target ids set, kernel id, offset and size still zero); they
    are assertions of debug builds and change nothing in the result. *)
Definition translate_event (st : Captured) (event : Event.t)
  : Captured * Event.t :=
  match read_descriptor event with
  | None => (st, event)
  | Some ftrace_event =>
      let '(fields, fields_end) :=
        merge_fields (FtraceEvent.fields ftrace_event) (Event.fields event) 0%N in
      let st := after_capture st ftrace_event in
      (st,
       Event.mk (Event.name event) (Event.group event) fields
                (FtraceEvent.id ftrace_event) (Event.proto_field_id event)
                (N.max fields_end (common_fields_end st)))
  end.

Fixpoint translate_events (st : Captured) (events : list Event.t)
  : Captured * list Event.t :=
  match events with
  | [] => (st, [])
  | event :: rest =>
      let '(st, event') := translate_event st event in
      let '(st, rest') := translate_events st rest in
      (st, event' :: rest')
  end.

(** The vector handed to the constructor: translated, then filtered. *)
Definition surviving_events (events : list Event.t) : list Event.t :=
  List.filter (fun event => negb (unusable event))
              (translate_events no_common_fields events).2.

Definition Create (events : list Event.t) : ProtoTranslationTable :=
  new_ProtoTranslationTable
    (surviving_events events)
    (common_fields (translate_events no_common_fields events).1).

End Builder.

(** ** The vocabulary of the design document

    Definitions that follow the design document rather than the code; the
    theorems below relate them to [Create]. *)

(** "max over fields of offset+size", in the 16-bit arithmetic of the code. *)
Definition fields_extent (fs : list Field.t) : N :=
  foldr (fun f m => N.max (Field.extent f) m) 0%N fs.

(** The extent of the common fields the table ends up with. *)
Definition common_extent (table : ProtoTranslationTable) : N :=
  fields_extent (common_fields_ table).

(** The [Field] recorded for one common field of a descriptor. *)
Definition common_of (k : FtraceEvent.Field.t) : Field.t :=
  Field.common (to_u16 (FtraceEvent.Field.offset k))
               (to_u16 (FtraceEvent.Field.size k)).

(** [common_fields_end] is the extent of what has been captured. *)
Definition consistent (st : Captured) : Prop :=
  common_fields_end st = fields_extent (common_fields st).

Section Vocabulary.

Variable GetNameFromTypeAndName : string -> string.
Variable SetTranslationStrategy : N -> N -> option N.

Definition kernel_name (k : FtraceEvent.Field.t) : string :=
  GetNameFromTypeAndName (FtraceEvent.Field.type_and_name k).

(** "the first one whose name equals the Field's kernelName". *)
Definition first_named (name : string) (ks : list FtraceEvent.Field.t)
  : option FtraceEvent.Field.t :=
  List.find (fun k => String.eqb (kernel_name k) name) ks.

(** A declared field with the location of its kernel namesake, if any. *)
Definition located (ks : list FtraceEvent.Field.t) (f : Field.t)
  : option Field.t :=
  match first_named (Field.ftrace_name f) ks with
  | Some k =>
      Some (Field.set_location (to_u16 (FtraceEvent.Field.offset k))
                               (to_u16 (FtraceEvent.Field.size k)) f)
  | None => None
  end.

(** A declared field as it is kept: located, with a resolved strategy. *)
Definition resolved (ks : list FtraceEvent.Field.t) (f : Field.t)
  : option Field.t :=
  match located ks f with
  | Some f1 =>
      match SetTranslationStrategy
              (Field.ftrace_type f1) (Field.proto_field_type f1) with
      | Some s => Some (Field.set_strategy s f1)
      | None => None
      end
  | None => None
  end.

(** The declared fields that have a kernel namesake, supported or not. *)
Definition name_matched_fields
    (ks : list FtraceEvent.Field.t) (fs : list Field.t) : list Field.t :=
  omap (located ks) fs.

(** The declared fields that are kept. *)
Definition kept_fields
    (ks : list FtraceEvent.Field.t) (fs : list Field.t) : list Field.t :=
  omap (resolved ks) fs.

End Vocabulary.

(** ** Read access

    The accessors are declared in proto_translation_table.h, which is not
    among the sources. *)

(** Modelled from the spec: the by-id accessor of the table header, "bounds-
    checked against the dense array size, yields empty result for out-of-range
    or default/unused slots".  An unused slot is told by its zero
    [ftrace_event_id].  The result is the slot referred to. *)
Definition lookupById (table : ProtoTranslationTable) (id : N) : option nat :=
  match events_ table !! N.to_nat id with
  | Some event =>
      if (Event.ftrace_event_id event =? 0)%N then None else Some (N.to_nat id)
  | None => None
  end.

(** Modelled from the spec: the by-name accessor of the table header,
    "mapping lookup, empty result if absent". *)
Definition lookupByName (table : ProtoTranslationTable) (name : string)
  : option nat :=
  name_to_event_ table !! name.

(** The [Event] a reference denotes. *)
Definition entry (table : ProtoTranslationTable) (slot : nat) : option Event.t :=
  events_ table !! slot.

(** A slot is reachable when some id or some name leads to it. *)
Definition reachable (table : ProtoTranslationTable) (slot : nat) : Prop :=
  (exists id, lookupById table id = Some slot) \/
  (exists name, lookupByName table name = Some slot).

(** An event that passes the post-pass filter. *)
Definition usable (event : Event.t) : Prop :=
  Event.proto_field_id event <> 0%N /\ Event.ftrace_event_id event <> 0%N.

(** What a catalog event requires of two runs: the same text from the two
    format sources, and the same verdict of the two parsers on it. *)
Definition same_format
    (Read1 Read2 : string -> string -> string)
    (Parse1 Parse2 : string -> option FtraceEvent.t)
    (event : Event.t) : Prop :=
  Read1 (Event.group event) (Event.name event)
  = Read2 (Event.group event) (Event.name event) /\
  Parse1 (Read1 (Event.group event) (Event.name event))
  = Parse2 (Read1 (Event.group event) (Event.name event)).

(** What [Create] never touches in an event, and in a field. *)
Definition event_identity (event : Event.t) : string * string * N :=
  (Event.name event, Event.group event, Event.proto_field_id event).

Definition field_identity (field : Field.t) : string * N * N * N :=
  (Field.ftrace_name field, Field.ftrace_type field,
   Field.proto_field_id field, Field.proto_field_type field).

(** Two kernel fields that differ at most in the type part of their
    [type_and_name], and two descriptors that differ at most in this way. *)
Definition same_place (GetNameFromTypeAndName : string -> string)
    (k1 k2 : FtraceEvent.Field.t) : Prop :=
  GetNameFromTypeAndName (FtraceEvent.Field.type_and_name k1)
  = GetNameFromTypeAndName (FtraceEvent.Field.type_and_name k2) /\
  FtraceEvent.Field.offset k1 = FtraceEvent.Field.offset k2 /\
  FtraceEvent.Field.size k1 = FtraceEvent.Field.size k2.

Definition same_layout (GetNameFromTypeAndName : string -> string)
    (d1 d2 : FtraceEvent.t) : Prop :=
  FtraceEvent.id d1 = FtraceEvent.id d2 /\
  Forall2 (fun k1 k2 =>
             FtraceEvent.Field.offset k1 = FtraceEvent.Field.offset k2 /\
             FtraceEvent.Field.size k1 = FtraceEvent.Field.size k2)
          (FtraceEvent.common_fields d1) (FtraceEvent.common_fields d2) /\
  Forall2 (same_place GetNameFromTypeAndName)
          (FtraceEvent.fields d1) (FtraceEvent.fields d2).

(** The last event of a list with a given slot number, or a given name. *)
Definition last_at (i : nat) (events : list Event.t) : option Event.t :=
  last (filter (fun e => N.to_nat (Event.ftrace_event_id e) = i) events).

Definition last_named (name : string) (events : list Event.t)
  : option Event.t :=
  last (filter (fun e => Event.name e = name) events).

(** ** A sample kernel

    Concrete collaborators and catalogs on which the statements below are
    exercised: the [sched_switch] scenarios of the design document. *)

Module Sample.

Local Open Scope string_scope.

(** The last word of a "type name" token, without an array suffix. *)
Fixpoint last_word (s acc : string) : string :=
  match s with
  | EmptyString => acc
  | String c rest =>
      if Ascii.eqb c " "%char then last_word rest EmptyString
      else if Ascii.eqb c "["%char then acc
      else last_word rest (acc ++ String c EmptyString)
  end.

Definition name_of (type_and_name : string) : string :=
  last_word type_and_name EmptyString.

(** Two supported conversions: number to number, characters to string. *)
Definition strategy_for (ftrace_type proto_field_type : N) : option N :=
  if ((ftrace_type =? 1) && (proto_field_type =? 1))%N then Some 1%N
  else if ((ftrace_type =? 2) && (proto_field_type =? 2))%N then Some 2%N
  else None.

(** A format directory: group, event name, text. *)
Definition read_from (files : list (string * string * string))
    (group name : string) : string :=
  match List.find
          (fun file => String.eqb file.1.1 group && String.eqb file.1.2 name)
          files with
  | Some file => file.2
  | None => EmptyString
  end.

(** A parser given by the descriptors of the texts it accepts. *)
Definition parse_from (formats : list (string * FtraceEvent.t))
    (text : string) : option FtraceEvent.t :=
  match List.find (fun format => String.eqb format.1 text) formats with
  | Some format => Some format.2
  | None => None
  end.

Definition kfield (type_and_name : string) (offset size : N)
  : FtraceEvent.Field.t :=
  FtraceEvent.Field.mk type_and_name offset size.

Definition header : list FtraceEvent.Field.t :=
  [ kfield "unsigned short common_type" 0 2;
    kfield "unsigned char common_flags" 2 1;
    kfield "unsigned char common_preempt_count" 3 1;
    kfield "int common_pid" 4 4 ].

(** [sched_switch] as the kernel of scenario A reports it. *)
Definition sched_switch_full : FtraceEvent.t :=
  FtraceEvent.mk 42 header
    [ kfield "char prev_comm[16]" 8 16;
      kfield "pid_t next_pid" 24 4;
      kfield "int next_prio" 28 4 ].

(** The same without [next_pid] (scenario B). *)
Definition sched_switch_short : FtraceEvent.t :=
  FtraceEvent.mk 42 header
    [ kfield "char prev_comm[16]" 8 16;
      kfield "int next_prio" 28 4 ].

(** An event whose format lists no common field. *)
Definition print_bare : FtraceEvent.t :=
  FtraceEvent.mk 5 [] [ kfield "char buf[8]" 8 8 ].

Definition tick_timer : FtraceEvent.t :=
  FtraceEvent.mk 7 header [ kfield "int cpu" 8 4 ].

Definition tick_sched : FtraceEvent.t :=
  FtraceEvent.mk 9 header [ kfield "int cpu" 8 4 ].

Definition formats : list (string * FtraceEvent.t) :=
  [ ("ID: 42 full", sched_switch_full);
    ("ID: 42 short", sched_switch_short);
    ("ID: 5", print_bare);
    ("ID: 7", tick_timer);
    ("ID: 9", tick_sched) ].

Definition kernel_full : list (string * string * string) :=
  [ ("ftrace", "print", "ID: 5");
    ("sched", "sched_switch", "ID: 42 full");
    ("timer", "tick", "ID: 7");
    ("sched", "tick", "ID: 9");
    ("sched", "sched_wakeup", "not a format") ].

Definition kernel_short : list (string * string * string) :=
  [ ("sched", "sched_switch", "ID: 42 short") ].

(** A directory in which [sched_wakeup] reports the id of [sched_switch]. *)
Definition kernel_clash : list (string * string * string) :=
  [ ("sched", "sched_wakeup", "ID: 42 short");
    ("sched", "sched_switch", "ID: 42 full") ].

Definition declared (ftrace_name : string)
    (ftrace_type proto_field_id proto_field_type : N) : Field.t :=
  Field.mk 0 0 ftrace_type ftrace_name proto_field_id proto_field_type 0.

Definition sched_switch : Event.t :=
  Event.mk "sched_switch" "sched"
    [ declared "prev_comm" 2 1 2; declared "next_pid" 1 2 1 ] 0 5 0.

(** [sched_switch] with a target type for [next_pid] that has no conversion
    (scenario D). *)
Definition sched_switch_odd : Event.t :=
  Event.mk "sched_switch" "sched"
    [ declared "prev_comm" 2 1 2; declared "next_pid" 1 2 2 ] 0 5 0.

(** [sched_switch] declaring [next_pid] alone. *)
Definition sched_switch_pid : Event.t :=
  Event.mk "sched_switch" "sched" [ declared "next_pid" 1 2 1 ] 0 5 0.

Definition sched_wakeup : Event.t :=
  Event.mk "sched_wakeup" "sched" [ declared "pid" 1 1 1 ] 0 6 0.

Definition print : Event.t :=
  Event.mk "print" "ftrace" [ declared "buf" 2 1 2 ] 0 3 0.

Definition timer_tick : Event.t :=
  Event.mk "tick" "timer" [ declared "cpu" 1 1 1 ] 0 8 0.

Definition sched_tick : Event.t :=
  Event.mk "tick" "sched" [ declared "cpu" 1 1 1 ] 0 9 0.

(** A field that ends beyond sixteen bits, and a format without an id. *)
Definition far_field : FtraceEvent.t :=
  FtraceEvent.mk 11 header [ kfield "char buf[8]" 65532 8 ].

Definition id_zero : FtraceEvent.t :=
  FtraceEvent.mk 0 header [ kfield "int cpu" 8 4 ].

(** [sched_switch] with other C types for the same fields. *)
Definition sched_switch_retyped : FtraceEvent.t :=
  FtraceEvent.mk 42
    [ kfield "u16 common_type" 0 2;
      kfield "u8 common_flags" 2 1;
      kfield "u8 common_preempt_count" 3 1;
      kfield "s32 common_pid" 4 4 ]
    [ kfield "u8 prev_comm[16]" 8 16;
      kfield "long next_pid" 24 4;
      kfield "long next_prio" 28 4 ].

Definition formats_edge : list (string * FtraceEvent.t) :=
  [ ("ID: 11", far_field); ("ID: 0", id_zero);
    ("ID: 42 full", sched_switch_retyped) ].

Definition kernel_edge : list (string * string * string) :=
  [ ("ftrace", "print", "ID: 11");
    ("timer", "tick", "ID: 0");
    ("sched", "sched_switch", "ID: 42 full") ].

(** [Create] on a given format directory. *)
Definition create (files : list (string * string * string))
    (catalog : list Event.t) : ProtoTranslationTable :=
  Create (read_from files) (parse_from formats) name_of strategy_for catalog.

Definition survivors (files : list (string * string * string))
    (catalog : list Event.t) : list Event.t :=
  surviving_events (read_from files) (parse_from formats) name_of strategy_for
                   catalog.

Definition descriptor (files : list (string * string * string))
    (event : Event.t) : option FtraceEvent.t :=
  read_descriptor (read_from files) (parse_from formats) event.

End Sample.

(** * Properties *)

(** ** Sixteen-bit arithmetic and extents *)

Lemma to_u16_small (x : N) : (x < 65536)%N -> to_u16 x = x.
Proof. intros Hx. unfold to_u16. apply N.mod_small. exact Hx. Qed.

Lemma to_u16_lt (x : N) : (to_u16 x < 65536)%N.
Proof. unfold to_u16. apply N.mod_lt. discriminate. Qed.

Lemma fields_extent_app (l1 l2 : list Field.t) :
  fields_extent (l1 ++ l2) = N.max (fields_extent l1) (fields_extent l2).
Proof.
  induction l1 as [|f l1 IH]; simpl.
  - symmetry. apply N.max_r. lia.
  - rewrite IH. lia.
Qed.

Lemma fields_extent_upper (fs : list Field.t) (f : Field.t) :
  f ∈ fs -> (Field.extent f <= fields_extent fs)%N.
Proof.
  induction 1 as [f fs|f g fs _ IH]; simpl; lia.
Qed.

Lemma fields_extent_attained (fs : list Field.t) :
  fs <> [] -> exists f, f ∈ fs /\ fields_extent fs = Field.extent f.
Proof.
  induction fs as [|f fs IH]; [done|intros _].
  destruct fs as [|g fs].
  - exists f. split; [by left|]. simpl. lia.
  - destruct IH as (h & Hh & Heq); [done|].
    destruct (N.max_spec (Field.extent f) (fields_extent (g :: fs)))
      as [[_ Hm]|[_ Hm]].
    + exists h. split; [by right|]. change (fields_extent (f :: g :: fs))
        with (N.max (Field.extent f) (fields_extent (g :: fs))). congruence.
    + exists f. split; [by left|]. exact Hm.
Qed.

Lemma fields_extent_lt (fs : list Field.t) : (fields_extent fs < 65536)%N.
Proof.
  induction fs as [|f fs IH]; simpl; [lia|].
  pose proof (to_u16_lt (Field.ftrace_offset f + Field.ftrace_size f)).
  unfold Field.extent. lia.
Qed.

Lemma extent_set_strategy (s : N) (f : Field.t) :
  Field.extent (Field.set_strategy s f) = Field.extent f.
Proof. reflexivity. Qed.

(** ** The field loops *)

Section FieldLoops.

Variable GetNameFromTypeAndName : string -> string.
Variable SetTranslationStrategy : N -> N -> option N.

Local Abbreviation kname := (kernel_name GetNameFromTypeAndName).
Local Abbreviation first_named := (first_named GetNameFromTypeAndName).
Local Abbreviation located := (located GetNameFromTypeAndName).
Local Abbreviation resolved :=
  (resolved GetNameFromTypeAndName SetTranslationStrategy).
Local Abbreviation scan :=
  (scan_ftrace_fields GetNameFromTypeAndName SetTranslationStrategy).
Local Abbreviation merge :=
  (merge_fields GetNameFromTypeAndName SetTranslationStrategy).

(** [first_named] is the first namesake in the order of the descriptor. *)
Lemma first_named_Some name ks k :
  first_named name ks = Some k <->
  exists pre post,
    ks = pre ++ k :: post /\
    Forall (fun x => kname x <> name) pre /\ kname k = name.
Proof.
  unfold first_named. induction ks as [|x ks IH]; simpl.
  - split; [done|]. intros (pre & post & Heq & _). by destruct pre.
  - destruct (String.eqb_spec (kname x) name) as [Hx|Hx].
    + split.
      * intros [= <-]. exists [], ks. by repeat split.
      * intros (pre & post & Heq & Hpre & Hk).
        destruct pre as [|y pre]; simpl in Heq.
        -- congruence.
        -- injection Heq as -> _. by inversion Hpre.
    + rewrite IH. split.
      * intros (pre & post & -> & Hpre & Hk).
        exists (x :: pre), post. repeat split; [|done]. by constructor.
      * intros (pre & post & Heq & Hpre & Hk).
        destruct pre as [|y pre]; simpl in Heq.
        -- injection Heq as -> _. done.
        -- injection Heq as -> ->. exists pre, post.
           repeat split; [|done]. by inversion Hpre.
Qed.

Lemma first_named_None name ks :
  first_named name ks = None <-> Forall (fun x => kname x <> name) ks.
Proof.
  unfold first_named. induction ks as [|x ks IH]; simpl.
  - split; [constructor|done].
  - destruct (String.eqb_spec (kname x) name) as [Hx|Hx].
    + split; [done|]. by inversion 1.
    + rewrite IH. split; [by constructor|by inversion 1].
Qed.

(** The scan, in one equation. *)
Lemma scan_ftrace_fields_located ks field fields_end :
  scan ks field fields_end =
  match located ks field with
  | None => (field, fields_end, false)
  | Some f1 =>
      let fields_end := N.max fields_end (Field.extent f1) in
      match SetTranslationStrategy
              (Field.ftrace_type f1) (Field.proto_field_type f1) with
      | Some s => (Field.set_strategy s f1, fields_end, true)
      | None => (f1, fields_end, false)
      end
  end.
Proof.
  unfold located, first_named, kernel_name.
  induction ks as [|k ks IH]; simpl; [done|].
  destruct (String.eqb _ _); simpl; [done|]. apply IH.
Qed.

(** The loop over the declared fields: what is kept, and [fields_end]. *)
Lemma merge_fields_kept ks fs fields_end :
  merge ks fs fields_end =
  (kept_fields GetNameFromTypeAndName SetTranslationStrategy ks fs,
   N.max fields_end
         (fields_extent (name_matched_fields GetNameFromTypeAndName ks fs))).
Proof.
  revert fields_end. induction fs as [|f fs IH]; intros fe; simpl.
  - f_equal. lia.
  - rewrite scan_ftrace_fields_located.
    unfold kept_fields, name_matched_fields, resolved in *. simpl.
    destruct (located ks f) as [f1|]; simpl.
    + destruct (SetTranslationStrategy _ _) as [s|]; rewrite IH; simpl;
        f_equal; lia.
    + rewrite IH. done.
Qed.

Lemma resolved_located ks f f' :
  resolved ks f = Some f' ->
  exists f1, located ks f = Some f1 /\ Field.extent f' = Field.extent f1.
Proof.
  unfold resolved. destruct (located ks f) as [f1|]; [|done].
  destruct (SetTranslationStrategy _ _); [|done].
  intros [= <-]. by exists f1.
Qed.

(** Every kept field lies below the extent of the name-matched fields. *)
Lemma kept_fields_extent ks fs f' :
  f' ∈ kept_fields GetNameFromTypeAndName SetTranslationStrategy ks fs ->
  (Field.extent f'
   <= fields_extent (name_matched_fields GetNameFromTypeAndName ks fs))%N.
Proof.
  unfold kept_fields, name_matched_fields.
  rewrite list_elem_of_omap. intros (f & Hf & Hres).
  destruct (resolved_located _ _ _ Hres) as (f1 & Hloc & ->).
  apply fields_extent_upper, list_elem_of_omap. eauto.
Qed.

End FieldLoops.

(** ** The loop over the catalog *)

Lemma capture_common_fields_list st ks :
  common_fields (capture_common_fields st ks)
  = common_fields st ++ map common_of ks.
Proof.
  unfold capture_common_fields. revert st.
  induction ks as [|k ks IH]; intros st; simpl.
  - by rewrite app_nil_r.
  - rewrite IH. simpl. by rewrite <- app_assoc.
Qed.

Lemma capture_common_fields_consistent st ks :
  consistent st -> consistent (capture_common_fields st ks).
Proof.
  unfold capture_common_fields. revert st.
  induction ks as [|k ks IH]; intros st Hst; simpl; [done|].
  apply IH. unfold consistent in *. simpl.
  rewrite fields_extent_app, Hst. simpl. unfold Field.extent. simpl. lia.
Qed.

Lemma no_common_fields_consistent : consistent no_common_fields.
Proof. reflexivity. Qed.

Section EventLoop.

Variable ReadEventFormat : string -> string -> string.
Variable ParseFtraceEvent : string -> option FtraceEvent.t.
Variable GetNameFromTypeAndName : string -> string.
Variable SetTranslationStrategy : N -> N -> option N.

Local Abbreviation descriptor :=
  (read_descriptor ReadEventFormat ParseFtraceEvent).
Local Abbreviation step :=
  (translate_event ReadEventFormat ParseFtraceEvent
                   GetNameFromTypeAndName SetTranslationStrategy).
Local Abbreviation loop :=
  (translate_events ReadEventFormat ParseFtraceEvent
                    GetNameFromTypeAndName SetTranslationStrategy).
Local Abbreviation survivors :=
  (surviving_events ReadEventFormat ParseFtraceEvent
                    GetNameFromTypeAndName SetTranslationStrategy).
Local Abbreviation create :=
  (Create ReadEventFormat ParseFtraceEvent
          GetNameFromTypeAndName SetTranslationStrategy).
Local Abbreviation kept :=
  (kept_fields GetNameFromTypeAndName SetTranslationStrategy).
Local Abbreviation matched := (name_matched_fields GetNameFromTypeAndName).

Lemma read_descriptor_None event :
  descriptor event = None <->
  ReadEventFormat (Event.group event) (Event.name event) = EmptyString \/
  ParseFtraceEvent (ReadEventFormat (Event.group event) (Event.name event))
  = None.
Proof.
  unfold read_descriptor.
  destruct (String.eqb_spec
              (ReadEventFormat (Event.group event) (Event.name event))
              EmptyString) as [->|Hne].
  - split; [by left|done].
  - split; [by right|]. by intros [?|?].
Qed.

Lemma translate_event_unavailable st event :
  descriptor event = None -> step st event = (st, event).
Proof. unfold translate_event. by intros ->. Qed.

Lemma translate_event_parsed st event d :
  descriptor event = Some d ->
  step st event =
  (after_capture st d,
   Event.mk (Event.name event) (Event.group event)
            (kept (FtraceEvent.fields d) (Event.fields event))
            (FtraceEvent.id d) (Event.proto_field_id event)
            (N.max (fields_extent
                      (matched (FtraceEvent.fields d) (Event.fields event)))
                   (common_fields_end (after_capture st d)))).
Proof.
  unfold translate_event. intros ->.
  rewrite merge_fields_kept. unfold after_capture.
  by rewrite N.max_0_l.
Qed.

Lemma translate_event_name st event :
  Event.name (step st event).2 = Event.name event.
Proof.
  destruct (descriptor event) as [d|] eqn:Hd.
  - by rewrite (translate_event_parsed _ _ _ Hd).
  - by rewrite (translate_event_unavailable _ _ Hd).
Qed.

Lemma translate_event_consistent st event :
  consistent st -> consistent (step st event).1.
Proof.
  intros Hst. destruct (descriptor event) as [d|] eqn:Hd.
  - rewrite (translate_event_parsed _ _ _ Hd). simpl. unfold after_capture.
    destruct (common_fields st); [|done].
    by apply capture_common_fields_consistent.
  - by rewrite (translate_event_unavailable _ _ Hd).
Qed.

(** Once something has been captured the state never changes again. *)
Lemma translate_event_frozen st event :
  common_fields st <> [] -> (step st event).1 = st.
Proof.
  intros Hne. destruct (descriptor event) as [d|] eqn:Hd.
  - rewrite (translate_event_parsed _ _ _ Hd). simpl. unfold after_capture.
    by destruct (common_fields st).
  - by rewrite (translate_event_unavailable _ _ Hd).
Qed.

Lemma translate_events_cons st event rest :
  loop st (event :: rest) =
  ((loop (step st event).1 rest).1,
   (step st event).2 :: (loop (step st event).1 rest).2).
Proof.
  simpl. destruct (step st event) as [st1 e]. simpl.
  by destruct (loop st1 rest).
Qed.

Lemma translate_events_app st l1 l2 :
  loop st (l1 ++ l2) =
  ((loop (loop st l1).1 l2).1, (loop st l1).2 ++ (loop (loop st l1).1 l2).2).
Proof.
  revert st. induction l1 as [|ev l1 IH]; intros st.
  - simpl. by destruct (loop st l2).
  - rewrite <- app_comm_cons, !translate_events_cons, IH. done.
Qed.

Lemma translate_events_length st l : length (loop st l).2 = length l.
Proof.
  revert st. induction l as [|ev l IH]; intros st; [done|].
  rewrite translate_events_cons. simpl. by rewrite IH.
Qed.

Lemma translate_events_frozen st l :
  common_fields st <> [] -> (loop st l).1 = st.
Proof.
  revert st. induction l as [|ev l IH]; intros st Hne; [done|].
  rewrite translate_events_cons. simpl.
  rewrite (translate_event_frozen _ _ Hne). by apply IH.
Qed.

Lemma translate_events_consistent st l :
  consistent st -> consistent (loop st l).1.
Proof.
  revert st. induction l as [|ev l IH]; intros st Hst; [done|].
  rewrite translate_events_cons. simpl.
  by apply IH, translate_event_consistent.
Qed.

(** The event translated at position [i], and the state it was met in. *)
Lemma translate_events_lookup st catalog i event :
  catalog !! i = Some event ->
  (loop st catalog).2 !! i
  = Some (step (loop st (take i catalog)).1 event).2.
Proof.
  intros Hi. destruct (list_elem_of_split_length _ _ _ Hi) as (l1 & l2 & -> & ->).
  rewrite take_app_length, translate_events_app, translate_events_cons.
  cbn [snd].
  rewrite lookup_app_r by (rewrite translate_events_length; lia).
  by rewrite translate_events_length, Nat.sub_diag.
Qed.

Lemma translate_events_final st l1 event l2 :
  common_fields (step (loop st l1).1 event).1 <> [] ->
  (loop st (l1 ++ event :: l2)).1 = (step (loop st l1).1 event).1.
Proof.
  intros Hne. rewrite translate_events_app, translate_events_cons. simpl.
  by apply translate_events_frozen.
Qed.

Lemma after_capture_nonempty st d :
  FtraceEvent.common_fields d <> [] -> common_fields (after_capture st d) <> [].
Proof.
  intros Hd. unfold after_capture.
  destruct (common_fields st) as [|c cs] eqn:Hst.
  - rewrite capture_common_fields_list, Hst. simpl.
    by destruct (FtraceEvent.common_fields d).
  - by rewrite Hst.
Qed.

End EventLoop.

(** ** The dense vector *)

Lemma last_such {A : Type} (P : A -> Prop) `{!forall x, Decision (P x)}
    (l : list A) :
  Exists P l ->
  exists l1 x l2, l = l1 ++ x :: l2 /\ P x /\ Forall (fun y => ~ P y) l2.
Proof.
  induction l as [|a l IH]; intros Hex; [by inversion Hex|].
  destruct (decide (Exists P l)) as [Hl|Hl].
  - destruct (IH Hl) as (l1 & x & l2 & -> & Hx & Hl2).
    by exists (a :: l1), x, l2.
  - inversion Hex as [? ? Ha|]; [|done]. subst.
    exists [], a, l. repeat split; [done|]. by apply not_Exists_Forall.
Qed.

Lemma largest_id_fold_ge (events : list Event.t) (start : N) :
  let largest :=
    fold_left
      (fun largest_id event =>
         if (largest_id <? Event.ftrace_event_id event)%N
         then Event.ftrace_event_id event else largest_id)
      events start in
  (start <= largest)%N /\
  Forall (fun e => (Event.ftrace_event_id e <= largest)%N) events /\
  (largest = start \/ exists e, e ∈ events /\ Event.ftrace_event_id e = largest).
Proof.
  revert start. induction events as [|e events IH]; intros start; simpl.
  - split; [lia|]. split; [constructor|by left].
  - destruct (N.ltb_spec start (Event.ftrace_event_id e)) as [Hlt|Hge].
    + destruct (IH (Event.ftrace_event_id e)) as (Hle & Hall & Hatt).
      split; [lia|]. split; [by constructor|]. right.
      destruct Hatt as [->|(e' & He' & Heq)].
      * exists e. split; [by left|done].
      * exists e'. split; [by right|done].
    + destruct (IH start) as (Hle & Hall & Hatt).
      split; [done|]. split; [constructor; [lia|done]|].
      destruct Hatt as [->|(e' & He' & Heq)]; [by left|].
      right. exists e'. split; [by right|done].
Qed.

Lemma largest_id_of_ge (events : list Event.t) (e : Event.t) :
  e ∈ events -> (Event.ftrace_event_id e <= largest_id_of events)%N.
Proof.
  intros He. destruct (largest_id_fold_ge events 0) as (_ & Hall & _).
  rewrite Forall_forall in Hall. by apply Hall.
Qed.

Lemma largest_id_of_attained (events : list Event.t) :
  events <> [] ->
  exists e, e ∈ events /\ Event.ftrace_event_id e = largest_id_of events.
Proof.
  intros Hne. destruct (largest_id_fold_ge events 0) as (_ & Hall & [H0|Hatt]);
    [|done].
  destruct events as [|e events]; [done|]. exists e. split; [by left|].
  inversion Hall as [|? ? He _]; subst. unfold largest_id_of. lia.
Qed.

Lemma largest_id_of_nil : largest_id_of [] = 0%N.
Proof. reflexivity. Qed.

Lemma place_events_length (events by_id : list Event.t) :
  length (place_events events by_id) = length by_id.
Proof.
  unfold place_events. revert by_id.
  induction events as [|e events IH]; intros by_id; simpl; [done|].
  by rewrite IH, length_insert.
Qed.

Lemma place_events_snoc (events by_id : list Event.t) (e : Event.t) :
  place_events (events ++ [e]) by_id
  = <[N.to_nat (Event.ftrace_event_id e) := e]> (place_events events by_id).
Proof. unfold place_events. by rewrite fold_left_app. Qed.

Lemma place_events_app (l1 l2 by_id : list Event.t) :
  place_events (l1 ++ l2) by_id = place_events l2 (place_events l1 by_id).
Proof. unfold place_events. by rewrite fold_left_app. Qed.

(** A slot holds what it held before or an event placed at its own id. *)
Lemma place_events_lookup_inv (events by_id : list Event.t) i E :
  place_events events by_id !! i = Some E ->
  by_id !! i = Some E \/
  (E ∈ events /\ N.to_nat (Event.ftrace_event_id E) = i).
Proof.
  induction events as [|e events IH] using rev_ind; [by left|].
  rewrite place_events_snoc. intros Hi.
  destruct (decide (N.to_nat (Event.ftrace_event_id e) = i)) as [<-|Hne].
  - apply list_lookup_insert_Some in Hi as [(_ & -> & _)|(? & _)]; [|done].
    right. split; [|done]. apply elem_of_app. right. by left.
  - rewrite list_lookup_insert_ne in Hi by done.
    destruct (IH Hi) as [?|[? ?]]; [by left|right].
    split; [|done]. apply elem_of_app. by left.
Qed.

(** Slots whose number is no event's id keep their content. *)
Lemma place_events_untouched (events by_id : list Event.t) i :
  Forall (fun e => N.to_nat (Event.ftrace_event_id e) <> i) events ->
  place_events events by_id !! i = by_id !! i.
Proof.
  unfold place_events. intros Hall. revert by_id.
  induction Hall as [|e events He _ IH]; intros by_id; simpl; [done|].
  by rewrite IH, list_lookup_insert_ne.
Qed.

(** The last event placed at an id is the one the slot holds. *)
Lemma place_events_last (l1 l2 by_id : list Event.t) (E : Event.t) :
  N.to_nat (Event.ftrace_event_id E) < length by_id ->
  Forall (fun e => Event.ftrace_event_id e <> Event.ftrace_event_id E) l2 ->
  place_events (l1 ++ E :: l2) by_id !! N.to_nat (Event.ftrace_event_id E)
  = Some E.
Proof.
  intros Hlen Hl2. rewrite place_events_app.
  change (place_events (E :: l2) (place_events l1 by_id))
    with (place_events l2
            (<[N.to_nat (Event.ftrace_event_id E) := E]>
               (place_events l1 by_id))).
  rewrite place_events_untouched.
  - apply list_lookup_insert_eq. by rewrite place_events_length.
  - eapply Forall_impl; [exact Hl2|]. intros e Hne Heq.
    by apply Hne, N2Nat.inj.
Qed.

Lemma BuildEventsVector_length (events : list Event.t) :
  length (BuildEventsVector events) = N.to_nat (largest_id_of events) + 1.
Proof.
  unfold BuildEventsVector. rewrite place_events_length, length_replicate. lia.
Qed.

Lemma BuildEventsVector_in_range (events : list Event.t) (e : Event.t) :
  e ∈ events ->
  N.to_nat (Event.ftrace_event_id e) < length (BuildEventsVector events).
Proof.
  intros He. rewrite BuildEventsVector_length.
  pose proof (largest_id_of_ge _ _ He). lia.
Qed.

Lemma BuildEventsVector_lookup_inv (events : list Event.t) i E :
  BuildEventsVector events !! i = Some E ->
  E = Event.default \/
  (E ∈ events /\ N.to_nat (Event.ftrace_event_id E) = i).
Proof.
  unfold BuildEventsVector. intros Hi.
  apply place_events_lookup_inv in Hi as [Hi|Hi]; [left|by right].
  by apply lookup_replicate in Hi as [-> _].
Qed.

Lemma BuildEventsVector_last (l1 l2 : list Event.t) (E : Event.t) :
  Forall (fun e => Event.ftrace_event_id e <> Event.ftrace_event_id E) l2 ->
  BuildEventsVector (l1 ++ E :: l2) !! N.to_nat (Event.ftrace_event_id E)
  = Some E.
Proof.
  intros Hl2. unfold BuildEventsVector. apply place_events_last; [|done].
  rewrite length_replicate.
  assert (E ∈ l1 ++ E :: l2) as HE by (apply elem_of_app; right; by left).
  pose proof (largest_id_of_ge _ _ HE). lia.
Qed.

Lemma BuildEventsVector_unused (events : list Event.t) i :
  i < length (BuildEventsVector events) ->
  Forall (fun e => N.to_nat (Event.ftrace_event_id e) <> i) events ->
  BuildEventsVector events !! i = Some Event.default.
Proof.
  intros Hi Hall. unfold BuildEventsVector.
  rewrite place_events_untouched by done.
  apply lookup_replicate. split; [done|].
  rewrite BuildEventsVector_length in Hi. lia.
Qed.

(** The slot of an event's id holds the last event of that id. *)
Lemma BuildEventsVector_slot (events : list Event.t) (e : Event.t) :
  e ∈ events ->
  exists l1 E l2,
    events = l1 ++ E :: l2 /\
    Event.ftrace_event_id E = Event.ftrace_event_id e /\
    Forall (fun x => Event.ftrace_event_id x <> Event.ftrace_event_id e) l2 /\
    BuildEventsVector events !! N.to_nat (Event.ftrace_event_id e) = Some E.
Proof.
  intros He.
  destruct (last_such
              (fun x => Event.ftrace_event_id x = Event.ftrace_event_id e)
              events) as (l1 & E & l2 & -> & HE & Hl2).
  { apply Exists_exists. by exists e. }
  exists l1, E, l2. repeat split; [done|done|].
  rewrite <- HE. apply BuildEventsVector_last. by rewrite HE.
Qed.

(** ** The name index *)

Lemma index_names_snoc (events : list Event.t) (e : Event.t) :
  index_names (events ++ [e])
  = <[Event.name e := N.to_nat (Event.ftrace_event_id e)]> (index_names events).
Proof. unfold index_names. by rewrite fold_left_app. Qed.

(** Every entry of the index was written for some event of the list. *)
Lemma index_names_lookup_inv (events : list Event.t) name slot :
  index_names events !! name = Some slot ->
  exists E, E ∈ events /\ Event.name E = name /\
            N.to_nat (Event.ftrace_event_id E) = slot.
Proof.
  induction events as [|e events IH] using rev_ind; [done|].
  rewrite index_names_snoc. intros Hl.
  apply lookup_insert_Some in Hl as [[<- <-]|[Hne Hl]].
  - exists e. split; [|done]. apply elem_of_app. right. by left.
  - destruct (IH Hl) as (E & HE & Hn & Hs). exists E.
    split; [|done]. apply elem_of_app. by left.
Qed.

Lemma index_names_fold_untouched (events : list Event.t)
    (m : gmap string nat) name :
  Forall (fun e => Event.name e <> name) events ->
  fold_left
    (fun m event =>
       <[Event.name event := N.to_nat (Event.ftrace_event_id event)]> m)
    events m !! name = m !! name.
Proof.
  intros Hall. revert m.
  induction Hall as [|e events He _ IH]; intros m; simpl; [done|].
  by rewrite IH, lookup_insert_ne.
Qed.

Lemma index_names_absent (events : list Event.t) name :
  Forall (fun e => Event.name e <> name) events ->
  index_names events !! name = None.
Proof.
  intros Hall. unfold index_names.
  by rewrite index_names_fold_untouched.
Qed.

(** The last event of a name decides where the name points. *)
Lemma index_names_last (l1 l2 : list Event.t) (E : Event.t) :
  Forall (fun e => Event.name e <> Event.name E) l2 ->
  index_names (l1 ++ E :: l2) !! Event.name E
  = Some (N.to_nat (Event.ftrace_event_id E)).
Proof.
  intros Hl2. unfold index_names. rewrite fold_left_app. simpl.
  rewrite index_names_fold_untouched by done.
  apply lookup_insert_eq.
Qed.

Lemma index_names_slot (events : list Event.t) (e : Event.t) :
  e ∈ events ->
  exists l1 E l2,
    events = l1 ++ E :: l2 /\ Event.name E = Event.name e /\
    Forall (fun x => Event.name x <> Event.name e) l2 /\
    index_names events !! Event.name e
    = Some (N.to_nat (Event.ftrace_event_id E)).
Proof.
  intros He.
  destruct (last_such (fun x => Event.name x = Event.name e) events)
    as (l1 & E & l2 & -> & HE & Hl2).
  { apply Exists_exists. by exists e. }
  exists l1, E, l2. repeat split; [done|done|].
  rewrite <- HE. apply index_names_last. by rewrite HE.
Qed.

(** With pairwise distinct names, each event's name points at its own id. *)
Lemma index_names_NoDup (events : list Event.t) (e : Event.t) :
  NoDup (map Event.name events) ->
  e ∈ events ->
  index_names events !! Event.name e
  = Some (N.to_nat (Event.ftrace_event_id e)).
Proof.
  intros Hnd He.
  destruct (list_elem_of_split _ _ He) as (l1 & l2 & ->).
  apply index_names_last.
  rewrite map_app in Hnd. simpl in Hnd.
  apply NoDup_app in Hnd as (_ & _ & Hnd).
  apply NoDup_cons in Hnd as [Hnotin _].
  apply Forall_forall. intros x Hx Heq. apply Hnotin.
  rewrite <- Heq. apply list_elem_of_fmap. by exists x.
Qed.

(** ** Reading a table built by the constructor *)

Section Lookups.

Variable events : list Event.t.
Variable commons : list Field.t.

Local Abbreviation table := (new_ProtoTranslationTable events commons).

Lemma lookupById_Some id slot :
  lookupById table id = Some slot <->
  slot = N.to_nat id /\
  exists E, entry table slot = Some E /\ Event.ftrace_event_id E <> 0%N.
Proof.
  unfold lookupById, entry. simpl. split.
  - destruct (BuildEventsVector events !! N.to_nat id) as [E|] eqn:HE; [|done].
    destruct (N.eqb_spec (Event.ftrace_event_id E) 0); [done|].
    intros [= <-]. split; [done|]. by exists E.
  - intros (-> & E & -> & Hne).
    by destruct (N.eqb_spec (Event.ftrace_event_id E) 0).
Qed.

(** A non-empty lookup by id yields an event of the list, of that id. *)
Lemma lookupById_entry id slot E :
  lookupById table id = Some slot ->
  entry table slot = Some E ->
  E ∈ events /\ Event.ftrace_event_id E = id /\ id <> 0%N.
Proof.
  intros Hl HE. apply lookupById_Some in Hl as (-> & E' & HE' & Hne).
  assert (E' = E) as -> by congruence.
  unfold entry in HE. simpl in HE.
  apply BuildEventsVector_lookup_inv in HE as [->|[Hin Hid]]; [done|].
  apply N2Nat.inj in Hid. by subst.
Qed.

(** A lookup by name yields a slot in range, holding an event of the list
    whose id is the slot number. *)
Lemma lookupByName_entry name slot :
  lookupByName table name = Some slot ->
  exists E, entry table slot = Some E /\ E ∈ events /\
            N.to_nat (Event.ftrace_event_id E) = slot.
Proof.
  unfold lookupByName, entry. simpl. intros Hl.
  apply index_names_lookup_inv in Hl as (E0 & HE0 & _ & <-).
  destruct (BuildEventsVector_slot _ _ HE0) as (l1 & E & l2 & -> & Hid & _ & HE).
  exists E. split; [done|]. split; [|by rewrite Hid].
  apply elem_of_app. right. by left.
Qed.

End Lookups.

(** ** The table built by [Create] *)

Lemma unusable_false (event : Event.t) :
  unusable event = false <-> usable event.
Proof.
  unfold unusable, usable. rewrite orb_false_iff, !N.eqb_neq. done.
Qed.

Section Tables.

Variable ReadEventFormat : string -> string -> string.
Variable ParseFtraceEvent : string -> option FtraceEvent.t.
Variable GetNameFromTypeAndName : string -> string.
Variable SetTranslationStrategy : N -> N -> option N.

Local Abbreviation descriptor :=
  (read_descriptor ReadEventFormat ParseFtraceEvent).
Local Abbreviation step :=
  (translate_event ReadEventFormat ParseFtraceEvent
                   GetNameFromTypeAndName SetTranslationStrategy).
Local Abbreviation loop :=
  (translate_events ReadEventFormat ParseFtraceEvent
                    GetNameFromTypeAndName SetTranslationStrategy).
Local Abbreviation survivors :=
  (surviving_events ReadEventFormat ParseFtraceEvent
                    GetNameFromTypeAndName SetTranslationStrategy).
Local Abbreviation create :=
  (Create ReadEventFormat ParseFtraceEvent
          GetNameFromTypeAndName SetTranslationStrategy).
Local Abbreviation kept :=
  (kept_fields GetNameFromTypeAndName SetTranslationStrategy).
Local Abbreviation matched := (name_matched_fields GetNameFromTypeAndName).

Lemma surviving_events_elem catalog e :
  e ∈ survivors catalog <->
  e ∈ (loop no_common_fields catalog).2 /\ usable e.
Proof.
  unfold surviving_events.
  rewrite !list_elem_of_In, filter_In, negb_true_iff, unusable_false. done.
Qed.

Lemma surviving_events_usable catalog :
  Forall usable (survivors catalog).
Proof.
  apply Forall_forall. intros e He. by apply surviving_events_elem in He as [_ ?].
Qed.

(** In a table built by [Create] the slots with a zero kernel id are the
    slots that still hold the default event. *)
Lemma unused_slot_default catalog slot E :
  entry (create catalog) slot = Some E ->
  Event.ftrace_event_id E = 0%N <-> E = Event.default.
Proof.
  intros HE. split; [|by intros ->].
  apply BuildEventsVector_lookup_inv in HE as [->|[Hin _]]; [done|].
  pose proof (surviving_events_usable catalog) as Hall.
  rewrite Forall_forall in Hall. by destruct (Hall _ Hin).
Qed.

(** C3.  The events handed to the constructor are those that passed the
    post-pass filter; every slot of the dense vector holds the default event
    or one of them, at its own id; and whatever a lookup by id or by name
    leads to is one of them, so that neither its target id
    ([proto_field_id]) nor its kernel id ([ftrace_event_id]) is zero. *)
Theorem reachable_events_usable catalog :
  Forall usable (survivors catalog) /\
  forall slot E,
    entry (create catalog) slot = Some E ->
    (E = Event.default \/
     (E ∈ survivors catalog /\ N.to_nat (Event.ftrace_event_id E) = slot)) /\
    (reachable (create catalog) slot ->
     E ∈ survivors catalog /\
     Event.proto_field_id E <> 0%N /\ Event.ftrace_event_id E <> 0%N).
Proof.
  split; [apply surviving_events_usable|]. intros slot E HE. split.
  - by apply BuildEventsVector_lookup_inv.
  - intros Hreach.
    assert (E ∈ survivors catalog) as Hin.
    { destruct Hreach as [[id Hid]|[name Hname]].
      - by destruct (lookupById_entry _ _ _ _ _ Hid HE).
      - destruct (lookupByName_entry _ _ _ _ Hname) as (E' & HE' & Hin & _).
        unfold Create in HE. congruence. }
    split; [done|].
    pose proof (surviving_events_usable catalog) as Hall.
    rewrite Forall_forall in Hall. by apply Hall.
Qed.

(** C8.  The dense vector has one slot more than the largest surviving
    kernel id; the slot of an id holds the survivor of that id (the last one
    placed there); a slot that is no survivor's id holds the default event;
    and a non-empty lookup by id returns an event of exactly that id, which
    is at most the largest id. *)
Theorem dense_vector_layout catalog :
  let table := create catalog in
  let surv := survivors catalog in
  exists max_id : N,
    length (events_ table) = N.to_nat max_id + 1 /\
    largest_id_ table = max_id /\
    (forall e, e ∈ surv -> (Event.ftrace_event_id e <= max_id)%N) /\
    (surv = [] -> max_id = 0%N) /\
    (surv <> [] -> exists e, e ∈ surv /\ Event.ftrace_event_id e = max_id) /\
    (forall l1 e l2,
        surv = l1 ++ e :: l2 ->
        Forall (fun x => Event.ftrace_event_id x <> Event.ftrace_event_id e) l2 ->
        entry table (N.to_nat (Event.ftrace_event_id e)) = Some e) /\
    (forall e, e ∈ surv ->
        exists e', e' ∈ surv /\
                   Event.ftrace_event_id e' = Event.ftrace_event_id e /\
                   entry table (N.to_nat (Event.ftrace_event_id e)) = Some e') /\
    (forall i, i < length (events_ table) ->
        Forall (fun x => N.to_nat (Event.ftrace_event_id x) <> i) surv ->
        entry table i = Some Event.default) /\
    (forall id slot E,
        lookupById table id = Some slot ->
        entry table slot = Some E ->
        Event.ftrace_event_id E = id /\ (id <= max_id)%N).
Proof.
  intros table surv. exists (largest_id_of surv).
  assert (length (events_ table) = N.to_nat (largest_id_of surv) + 1) as Hlen
    by apply BuildEventsVector_length.
  split; [done|]. split.
  { unfold table, Create, new_ProtoTranslationTable. simpl.
    fold surv. rewrite BuildEventsVector_length. lia. }
  split; [apply largest_id_of_ge|].
  split; [by intros ->|].
  split; [apply largest_id_of_attained|].
  split.
  { intros l1 e l2 Heq Hl2. unfold entry, table, Create. simpl. fold surv.
    rewrite Heq. by apply BuildEventsVector_last. }
  split.
  { intros e He.
    destruct (BuildEventsVector_slot _ _ He) as (l1 & e' & l2 & Heq & Hid & _ & Hs).
    exists e'. split; [|done]. rewrite Heq. apply elem_of_app. right. by left. }
  split.
  { intros i Hi Hall. by apply BuildEventsVector_unused. }
  intros id slot E Hid HE.
  destruct (lookupById_entry _ _ _ _ _ Hid HE) as (Hin & <- & _).
  split; [done|]. by apply largest_id_of_ge.
Qed.

(** C2, as amended.  A slot reached by name is the very slot reached by the
    id of the event it holds.  The converse needs the surviving events to
    have pairwise distinct names: then a slot reached by id is the very slot
    reached by the name of the event it holds. *)
Theorem name_and_id_lookups_agree catalog :
  let table := create catalog in
  (forall name slot,
      lookupByName table name = Some slot ->
      exists E, entry table slot = Some E /\
                lookupById table (Event.ftrace_event_id E) = Some slot) /\
  (NoDup (map Event.name (survivors catalog)) ->
   forall id slot E,
      lookupById table id = Some slot ->
      entry table slot = Some E ->
      lookupByName table (Event.name E) = Some slot).
Proof.
  intros table. split.
  - intros name slot Hname.
    destruct (lookupByName_entry _ _ _ _ Hname) as (E & HE & Hin & Hslot).
    exists E. split; [done|]. apply lookupById_Some. split; [done|].
    exists E. split; [done|].
    pose proof (surviving_events_usable catalog) as Hall.
    rewrite Forall_forall in Hall. by destruct (Hall _ Hin).
  - intros Hnd id slot E Hid HE.
    destruct (lookupById_entry _ _ _ _ _ Hid HE) as (Hin & <- & _).
    apply lookupById_Some in Hid as [-> _].
    by apply index_names_NoDup.
Qed.

(** C10, as amended.  When an earlier survivor [A] and the last survivor [B]
    of the same kernel id coexist, the slot of that id holds [B] alone; and
    if no survivor after [A] carries [A]'s name, that name leads to the same
    slot, where the event found ([B]) has another name than the key. *)
Theorem colliding_ids_share_slot catalog l1 A l2 B l3 :
  survivors catalog = l1 ++ A :: l2 ++ B :: l3 ->
  Event.ftrace_event_id A = Event.ftrace_event_id B ->
  Forall (fun x => Event.ftrace_event_id x <> Event.ftrace_event_id B) l3 ->
  let table := create catalog in
  let slot := N.to_nat (Event.ftrace_event_id B) in
  entry table slot = Some B /\
  lookupById table (Event.ftrace_event_id A) = Some slot /\
  (Forall (fun x => Event.name x <> Event.name A) (l2 ++ B :: l3) ->
   lookupByName table (Event.name A) = Some slot /\
   Event.name B <> Event.name A).
Proof.
  intros Heq Hid Hl3 table slot.
  assert (entry table slot = Some B) as HB.
  { unfold entry, table, Create. simpl. rewrite Heq.
    replace (l1 ++ A :: l2 ++ B :: l3) with ((l1 ++ A :: l2) ++ B :: l3)
      by (by rewrite <- app_assoc).
    by apply BuildEventsVector_last. }
  assert (B ∈ survivors catalog) as HinB.
  { rewrite Heq. apply elem_of_app. right. right. apply elem_of_app.
    right. by left. }
  split; [done|]. split.
  - rewrite Hid. apply lookupById_Some. split; [done|].
    exists B. split; [done|].
    pose proof (surviving_events_usable catalog) as Hall.
    rewrite Forall_forall in Hall. by destruct (Hall _ HinB).
  - intros Hnames. split.
    + unfold lookupByName, table, Create. simpl. rewrite Heq.
      unfold slot. rewrite <- Hid. by apply index_names_last.
    + apply Forall_app in Hnames as [_ Hnames]. by inversion Hnames.
Qed.

End Tables.

(** ** The builder *)

Section BuilderProperties.

Variable ReadEventFormat : string -> string -> string.
Variable ParseFtraceEvent : string -> option FtraceEvent.t.
Variable GetNameFromTypeAndName : string -> string.
Variable SetTranslationStrategy : N -> N -> option N.

Local Abbreviation descriptor :=
  (read_descriptor ReadEventFormat ParseFtraceEvent).
Local Abbreviation step :=
  (translate_event ReadEventFormat ParseFtraceEvent
                   GetNameFromTypeAndName SetTranslationStrategy).
Local Abbreviation loop :=
  (translate_events ReadEventFormat ParseFtraceEvent
                    GetNameFromTypeAndName SetTranslationStrategy).
Local Abbreviation survivors :=
  (surviving_events ReadEventFormat ParseFtraceEvent
                    GetNameFromTypeAndName SetTranslationStrategy).
Local Abbreviation create :=
  (Create ReadEventFormat ParseFtraceEvent
          GetNameFromTypeAndName SetTranslationStrategy).
Local Abbreviation kname := (kernel_name GetNameFromTypeAndName).
Local Abbreviation first_named := (first_named GetNameFromTypeAndName).
Local Abbreviation located := (located GetNameFromTypeAndName).
Local Abbreviation resolved :=
  (resolved GetNameFromTypeAndName SetTranslationStrategy).
Local Abbreviation kept :=
  (kept_fields GetNameFromTypeAndName SetTranslationStrategy).
Local Abbreviation matched := (name_matched_fields GetNameFromTypeAndName).

(** The translation of the [i]-th catalog event, when it has a descriptor. *)
Lemma translated_parsed catalog i ev d :
  catalog !! i = Some ev ->
  descriptor ev = Some d ->
  let st := after_capture (loop no_common_fields (take i catalog)).1 d in
  (loop no_common_fields catalog).2 !! i =
  Some (Event.mk (Event.name ev) (Event.group ev)
                 (kept (FtraceEvent.fields d) (Event.fields ev))
                 (FtraceEvent.id d) (Event.proto_field_id ev)
                 (N.max (fields_extent
                           (matched (FtraceEvent.fields d) (Event.fields ev)))
                        (common_fields_end st))) /\
  consistent st /\
  (common_fields st <> [] -> (loop no_common_fields catalog).1 = st).
Proof.
  intros Hi Hd st.
  rewrite (translate_events_lookup _ _ _ _ _ _ _ _ Hi).
  rewrite (translate_event_parsed _ _ _ _ _ _ _ Hd). split; [done|].
  pose proof (translate_events_consistent ReadEventFormat ParseFtraceEvent
                GetNameFromTypeAndName SetTranslationStrategy
                no_common_fields (take i catalog) no_common_fields_consistent)
    as Hcons.
  pose proof (translate_event_consistent ReadEventFormat ParseFtraceEvent
                GetNameFromTypeAndName SetTranslationStrategy _ ev Hcons)
    as Hcons'.
  rewrite (translate_event_parsed _ _ _ _ _ _ _ Hd) in Hcons'.
  split; [done|]. intros Hne.
  rewrite <- (take_drop_middle _ _ _ Hi) at 1.
  rewrite translate_events_final;
    by rewrite (translate_event_parsed _ _ _ _ _ _ _ Hd).
Qed.

(** Under the builder's precondition that catalog events come with a zero
    kernel id, every surviving event is the translation of a catalog event
    that has a descriptor. *)
Lemma survivor_has_descriptor catalog e :
  Forall (fun ev => Event.ftrace_event_id ev = 0%N) catalog ->
  e ∈ survivors catalog ->
  exists i ev d,
    catalog !! i = Some ev /\ descriptor ev = Some d /\
    (loop no_common_fields catalog).2 !! i = Some e.
Proof.
  intros Hpre He. apply surviving_events_elem in He as [He [_ Hid]].
  apply list_elem_of_lookup in He as [i Hi].
  assert (i < length catalog) as Hlt.
  { apply lookup_lt_Some in Hi. by rewrite translate_events_length in Hi. }
  apply lookup_lt_is_Some in Hlt as [ev Hev].
  exists i, ev.
  destruct (descriptor ev) as [d|] eqn:Hd; [by exists d|].
  rewrite (translate_events_lookup _ _ _ _ _ _ _ _ Hev) in Hi.
  rewrite (translate_event_unavailable _ _ _ _ _ _ Hd) in Hi.
  injection Hi as <-.
  rewrite Forall_forall in Hpre. destruct Hid.
  apply Hpre, list_elem_of_lookup. by exists i.
Qed.

(** C1, as amended.  For a catalog event with a descriptor (only such events
    survive, [survivor_has_descriptor]), the fields kept are the name-matched ones that have a
    conversion; if the descriptor lists a common field, the stored size is
    the maximum of the table's common extent and of the extents of all
    name-matched fields, including those dropped for want of a conversion;
    and every kept field ends, in 16-bit arithmetic, at or below that size. *)
Theorem event_size_covers_matched_fields catalog i ev d e :
  catalog !! i = Some ev ->
  descriptor ev = Some d ->
  (loop no_common_fields catalog).2 !! i = Some e ->
  Event.fields e = kept (FtraceEvent.fields d) (Event.fields ev) /\
  (FtraceEvent.common_fields d <> [] ->
   Event.size e =
   N.max (common_extent (create catalog))
         (fields_extent (matched (FtraceEvent.fields d) (Event.fields ev)))) /\
  Forall (fun f =>
            (Field.extent f <= Event.size e)%N /\
            ((Field.ftrace_offset f + Field.ftrace_size f < 65536)%N ->
             (Field.ftrace_offset f + Field.ftrace_size f <= Event.size e)%N))
         (Event.fields e).
Proof.
  intros Hi Hd He.
  destruct (translated_parsed _ _ _ _ Hi Hd) as (He' & Hcons & Hfinal).
  rewrite He in He'. injection He' as ->. simpl.
  split; [done|]. split.
  - intros Hne. unfold common_extent, Create. simpl.
    rewrite (Hfinal (after_capture_nonempty _ _ Hne)), <- Hcons. lia.
  - apply Forall_forall. intros f Hf.
    pose proof (kept_fields_extent _ _ _ _ _ Hf) as Hle.
    split; [lia|]. intros Hsmall.
    unfold Field.extent in Hle. rewrite to_u16_small in Hle by done. lia.
Qed.

Lemma filter_usable_middle (l1 l2 : list Event.t) (ev : Event.t) :
  unusable ev = true ->
  List.filter (fun event => negb (unusable event)) (l1 ++ ev :: l2)
  = List.filter (fun event => negb (unusable event)) (l1 ++ l2).
Proof.
  intros Hev. rewrite !List.filter_app. simpl. by rewrite Hev.
Qed.

(** C4.  A catalog event for which the format source returns the empty text
    or the parser fails goes through its iteration untouched (no id
    assigned, no field examined, nothing captured) and, its kernel id being
    zero as the builder's precondition has it, the table is the one built
    from the catalog without that event: it is in neither index and every
    other event is translated as if it had not been there. *)
Theorem unavailable_event_dropped l1 ev l2 :
  ReadEventFormat (Event.group ev) (Event.name ev) = EmptyString \/
  ParseFtraceEvent (ReadEventFormat (Event.group ev) (Event.name ev)) = None ->
  Event.ftrace_event_id ev = 0%N ->
  (forall st, step st ev = (st, ev)) /\
  survivors (l1 ++ ev :: l2) = survivors (l1 ++ l2) /\
  create (l1 ++ ev :: l2) = create (l1 ++ l2).
Proof.
  intros Hno Hid. apply read_descriptor_None in Hno.
  assert (forall st, step st ev = (st, ev)) as Hstep
    by (intros st; by apply translate_event_unavailable).
  assert (forall st, loop st (l1 ++ ev :: l2) =
                     ((loop st (l1 ++ l2)).1,
                      (loop st l1).2 ++ ev :: (loop (loop st l1).1 l2).2))
    as Hloop.
  { intros st. rewrite !translate_events_app, translate_events_cons.
    by rewrite Hstep. }
  assert (survivors (l1 ++ ev :: l2) = survivors (l1 ++ l2)) as Hsurv.
  { unfold surviving_events. rewrite Hloop. cbn [snd].
    rewrite filter_usable_middle.
    - by rewrite translate_events_app.
    - unfold unusable. rewrite Hid. apply orb_true_r. }
  split; [done|]. split; [done|].
  unfold Create. fold (survivors (l1 ++ ev :: l2)) (survivors (l1 ++ l2)).
  by rewrite Hsurv, Hloop.
Qed.

(** C7.  The fields of a translated event are exactly the declared fields
    for which the descriptor has a field of that name and the pair of types
    has a conversion; each carries the offset and size (sixteen bits each)
    of the first kernel field, in descriptor order, whose name equals its
    [ftrace_name], whatever comes after it in the descriptor. *)
Theorem first_namesake_located st ev d f' :
  descriptor ev = Some d ->
  f' ∈ Event.fields (step st ev).2 <->
  exists f pre k post s,
    f ∈ Event.fields ev /\
    FtraceEvent.fields d = pre ++ k :: post /\
    Forall (fun x => kname x <> Field.ftrace_name f) pre /\
    kname k = Field.ftrace_name f /\
    SetTranslationStrategy (Field.ftrace_type f) (Field.proto_field_type f)
    = Some s /\
    f' = Field.set_strategy s
           (Field.set_location (to_u16 (FtraceEvent.Field.offset k))
                               (to_u16 (FtraceEvent.Field.size k)) f).
Proof.
  intros Hd. rewrite (translate_event_parsed _ _ _ _ _ _ _ Hd). simpl.
  unfold kept_fields. rewrite list_elem_of_omap. split.
  - intros (f & Hf & Hres). unfold resolved, located in Hres.
    destruct (first_named (Field.ftrace_name f) (FtraceEvent.fields d)) as [k|] eqn:Hk;
      [|done].
    simpl in Hres.
    destruct (SetTranslationStrategy _ _) as [s|] eqn:Hs; [|done].
    injection Hres as <-.
    apply first_named_Some in Hk as (pre & post & Heq & Hpre & Hkn).
    by exists f, pre, k, post, s.
  - intros (f & pre & k & post & s & Hf & Heq & Hpre & Hkn & Hs & ->).
    exists f. split; [done|].
    assert (first_named (Field.ftrace_name f) (FtraceEvent.fields d) = Some k) as Hk
      by (apply first_named_Some; by exists pre, post).
    unfold resolved, located. rewrite Hk. simpl.
    by rewrite Hs.
Qed.

(** C5, as amended.  A catalog event whose descriptor parsed, with a
    non-zero kernel id and a non-zero target id, is among the events handed
    to the table and both lookups for it are non-empty, whatever happens to
    its fields, down to none being kept.  A field is kept exactly when it has
    a kernel namesake and a conversion, so both causes erase the field and
    nothing but the field; they differ in that every name-matched field,
    with or without a conversion, counts towards the event's size. *)
Theorem field_drops_keep_event catalog i ev d :
  catalog !! i = Some ev ->
  descriptor ev = Some d ->
  FtraceEvent.id d <> 0%N ->
  Event.proto_field_id ev <> 0%N ->
  exists e,
    (loop no_common_fields catalog).2 !! i = Some e /\
    e ∈ survivors catalog /\
    Event.name e = Event.name ev /\
    Event.group e = Event.group ev /\
    Event.proto_field_id e = Event.proto_field_id ev /\
    Event.ftrace_event_id e = FtraceEvent.id d /\
    is_Some (lookupByName (create catalog) (Event.name ev)) /\
    is_Some (lookupById (create catalog) (FtraceEvent.id d)) /\
    (forall f', f' ∈ Event.fields e <->
       exists f f1 s,
         f ∈ Event.fields ev /\
         located (FtraceEvent.fields d) f = Some f1 /\
         SetTranslationStrategy (Field.ftrace_type f1)
                                (Field.proto_field_type f1) = Some s /\
         f' = Field.set_strategy s f1) /\
    (forall f f1,
       f ∈ Event.fields ev ->
       located (FtraceEvent.fields d) f = Some f1 ->
       (Field.extent f1 <= Event.size e)%N).
Proof.
  intros Hi Hd Hid Hproto.
  destruct (translated_parsed _ _ _ _ Hi Hd) as (He & _ & _).
  eexists. split; [exact He|].
  match type of He with _ = Some ?x => set (e := x) in * end.
  assert (e ∈ survivors catalog) as Hin.
  { apply surviving_events_elem. split; [|by split].
    apply list_elem_of_lookup. by exists i. }
  split; [done|]. do 4 (split; [done|]).
  split.
  { destruct (index_names_slot _ _ Hin) as (_ & E & _ & _ & _ & _ & Hl).
    unfold lookupByName, Create. simpl. change (Event.name e) with (Event.name ev) in Hl.
    by rewrite Hl. }
  split.
  { destruct (BuildEventsVector_slot _ _ Hin) as (l1 & E & l2 & _ & HE & _ & Hs).
    exists (N.to_nat (FtraceEvent.id d)). apply lookupById_Some.
    split; [done|]. exists E. split; [exact Hs|].
    rewrite HE. exact Hid. }
  split.
  - intros f'. simpl. unfold kept_fields. rewrite list_elem_of_omap. split.
    + intros (f & Hf & Hres). unfold resolved in Hres.
      destruct (located (FtraceEvent.fields d) f) as [f1|] eqn:Hloc; [|done].
      destruct (SetTranslationStrategy _ _) as [s|] eqn:Hs; [|done].
      injection Hres as <-. by exists f, f1, s.
    + intros (f & f1 & s & Hf & Hloc & Hs & ->). exists f. split; [done|].
      unfold resolved. by rewrite Hloc, Hs.
  - intros f f1 Hf Hloc. simpl.
    assert (f1 ∈ matched (FtraceEvent.fields d) (Event.fields ev)) as Hm
      by (apply list_elem_of_omap; eauto).
    pose proof (fields_extent_upper _ _ Hm). lia.
Qed.

End BuilderProperties.

(** ** Two runs *)

Section TwoRuns.

Variables Read1 Read2 : string -> string -> string.
Variables Parse1 Parse2 : string -> option FtraceEvent.t.
Variables Name1 Name2 : string -> string.
Variables Strategy1 Strategy2 : N -> N -> option N.

Hypothesis same_names : forall s, Name1 s = Name2 s.
Hypothesis same_strategies : forall a b, Strategy1 a b = Strategy2 a b.

Local Abbreviation same := (same_format Read1 Read2 Parse1 Parse2).

Lemma scan_ftrace_fields_ext ks field fields_end :
  scan_ftrace_fields Name1 Strategy1 ks field fields_end
  = scan_ftrace_fields Name2 Strategy2 ks field fields_end.
Proof.
  induction ks as [|k ks IH]; simpl; [done|].
  by rewrite same_names, same_strategies, IH.
Qed.

Lemma merge_fields_ext ks fields fields_end :
  merge_fields Name1 Strategy1 ks fields fields_end
  = merge_fields Name2 Strategy2 ks fields fields_end.
Proof.
  revert fields_end. induction fields as [|f fields IH]; intros fe; simpl;
    [done|].
  rewrite scan_ftrace_fields_ext.
  destruct (scan_ftrace_fields Name2 Strategy2 ks f fe) as [[f' fe'] ok].
  by rewrite IH.
Qed.

Lemma translate_event_ext st event :
  same event ->
  translate_event Read1 Parse1 Name1 Strategy1 st event
  = translate_event Read2 Parse2 Name2 Strategy2 st event.
Proof.
  intros [Hread Hparse]. unfold translate_event, read_descriptor.
  rewrite <- Hread.
  destruct (String.eqb _ _); [done|]. rewrite <- Hparse.
  destruct (Parse1 _) as [d|]; [|done].
  by rewrite merge_fields_ext.
Qed.

Lemma translate_events_ext st catalog :
  Forall same catalog ->
  translate_events Read1 Parse1 Name1 Strategy1 st catalog
  = translate_events Read2 Parse2 Name2 Strategy2 st catalog.
Proof.
  intros Hall. revert st.
  induction Hall as [|ev catalog Hev _ IH]; intros st; simpl; [done|].
  rewrite (translate_event_ext _ _ Hev).
  destruct (translate_event Read2 Parse2 Name2 Strategy2 st ev) as [st' e].
  by rewrite IH.
Qed.

(** C9.  Two runs of [Create] on the same catalog, whose format sources
    return the same text for every catalog event and whose parsers,
    name extractors and resolvers answer alike, build the same table: the
    same dense vector, the same name index, the same common fields. *)
Theorem Create_deterministic catalog :
  Forall (same_format Read1 Read2 Parse1 Parse2) catalog ->
  Create Read1 Parse1 Name1 Strategy1 catalog
  = Create Read2 Parse2 Name2 Strategy2 catalog /\
  events_ (Create Read1 Parse1 Name1 Strategy1 catalog)
  = events_ (Create Read2 Parse2 Name2 Strategy2 catalog) /\
  name_to_event_ (Create Read1 Parse1 Name1 Strategy1 catalog)
  = name_to_event_ (Create Read2 Parse2 Name2 Strategy2 catalog).
Proof.
  intros Hall.
  assert (Create Read1 Parse1 Name1 Strategy1 catalog
          = Create Read2 Parse2 Name2 Strategy2 catalog) as Heq.
  { unfold Create, surviving_events.
    by rewrite (translate_events_ext _ _ Hall). }
  by rewrite Heq.
Qed.

End TwoRuns.

(** ** Where the common fields come from *)

Section CommonFields.

Variable ReadEventFormat : string -> string -> string.
Variable ParseFtraceEvent : string -> option FtraceEvent.t.
Variable GetNameFromTypeAndName : string -> string.
Variable SetTranslationStrategy : N -> N -> option N.

Local Abbreviation descriptor :=
  (read_descriptor ReadEventFormat ParseFtraceEvent).
Local Abbreviation loop :=
  (translate_events ReadEventFormat ParseFtraceEvent
                    GetNameFromTypeAndName SetTranslationStrategy).
Local Abbreviation create :=
  (Create ReadEventFormat ParseFtraceEvent
          GetNameFromTypeAndName SetTranslationStrategy).

(** Events without a common field in their descriptor, and events without a
    descriptor, leave the capture pending. *)
Lemma capture_pending l :
  Forall (fun ev => forall d, descriptor ev = Some d ->
                              FtraceEvent.common_fields d = []) l ->
  (loop no_common_fields l).1 = no_common_fields.
Proof.
  induction 1 as [|ev l Hev _ IH]; [done|].
  rewrite translate_events_cons. cbn [fst].
  destruct (descriptor ev) as [d|] eqn:Hd.
  - rewrite (translate_event_parsed _ _ _ _ _ _ _ Hd). cbn [fst].
    unfold after_capture. simpl. by rewrite (Hev d eq_refl).
  - by rewrite (translate_event_unavailable _ _ _ _ _ _ Hd).
Qed.

(** The table's common fields are those of the first descriptor that lists
    any, which need not be the first descriptor parsed. *)
Lemma common_fields_of_first_nonempty l1 ev l2 d :
  Forall (fun ev => forall d, descriptor ev = Some d ->
                              FtraceEvent.common_fields d = []) l1 ->
  descriptor ev = Some d ->
  FtraceEvent.common_fields d <> [] ->
  common_fields_ (create (l1 ++ ev :: l2))
  = map common_of (FtraceEvent.common_fields d).
Proof.
  intros Hl1 Hd Hne. unfold Create. simpl.
  rewrite translate_events_final;
    rewrite (translate_event_parsed _ _ _ _ _ _ _ Hd); cbn [fst].
  - rewrite (capture_pending _ Hl1). unfold after_capture. simpl.
    by rewrite capture_common_fields_list.
  - by apply after_capture_nonempty.
Qed.

End CommonFields.

(** ** The sample kernel *)

(** Scenarios A and B of the design document. *)
Example scenario_full_match :
  Sample.survivors Sample.kernel_full [Sample.sched_switch] =
  [ Event.mk "sched_switch" "sched"
      [ Field.mk 8 16 2 "prev_comm" 1 2 2; Field.mk 24 4 1 "next_pid" 2 1 1 ]
      42 5 28 ].
Proof. reflexivity. Qed.

Example scenario_missing_field :
  Sample.survivors Sample.kernel_short [Sample.sched_switch] =
  [ Event.mk "sched_switch" "sched"
      [ Field.mk 8 16 2 "prev_comm" 1 2 2 ] 42 5 24 ].
Proof. reflexivity. Qed.

(** Scenario C: the format source has nothing for [sched_switch]. *)
Example scenario_missing_event :
  Sample.survivors [] [Sample.sched_switch] = [] /\
  lookupByName (Sample.create [] [Sample.sched_switch]) "sched_switch" = None.
Proof. split; reflexivity. Qed.

(** Scenario D: [next_pid] has a kernel namesake but no conversion.  The
    field is erased, and the size is that of scenario A, not of scenario B. *)
Example scenario_unsupported_type :
  Sample.survivors Sample.kernel_full [Sample.sched_switch_odd] =
  [ Event.mk "sched_switch" "sched"
      [ Field.mk 8 16 2 "prev_comm" 1 2 2 ] 42 5 28 ].
Proof. reflexivity. Qed.

(** C6.  On the catalog [print; sched_switch] the first descriptor parsed is
    that of [print], which lists no common field; the loop then takes the
    table's common fields, and the common extent, from the descriptor of
    [sched_switch], the second one parsed. *)
Theorem common_fields_taken_from_later_event :
  let catalog := [Sample.print; Sample.sched_switch] in
  Sample.descriptor Sample.kernel_full Sample.print = Some Sample.print_bare /\
  FtraceEvent.common_fields Sample.print_bare = [] /\
  Sample.descriptor Sample.kernel_full Sample.sched_switch
  = Some Sample.sched_switch_full /\
  common_fields_ (Sample.create Sample.kernel_full catalog)
  = map common_of (FtraceEvent.common_fields Sample.sched_switch_full) /\
  common_fields_ (Sample.create Sample.kernel_full catalog)
  <> map common_of (FtraceEvent.common_fields Sample.print_bare) /\
  common_extent (Sample.create Sample.kernel_full catalog) = 8%N.
Proof.
  repeat split; try reflexivity. vm_compute. discriminate.
Qed.

(** ** The statements at work on the sample kernel *)

(** The amended C1 on scenario D: the size 28 is the extent of the dropped
    [next_pid], above the common extent 8 and the kept [prev_comm]'s 24. *)
Lemma event_size_covers_matched_fields_witness :
  let e := Event.mk "sched_switch" "sched"
             [ Field.mk 8 16 2 "prev_comm" 1 2 2 ] 42 5 28 in
  Sample.descriptor Sample.kernel_full Sample.sched_switch_odd
  = Some Sample.sched_switch_full /\
  Event.size e
  = N.max (common_extent
             (Sample.create Sample.kernel_full [Sample.sched_switch_odd]))
          (fields_extent
             (name_matched_fields Sample.name_of
                (FtraceEvent.fields Sample.sched_switch_full)
                (Event.fields Sample.sched_switch_odd))) /\
  Forall (fun f => (Field.extent f <= Event.size e)%N) (Event.fields e).
Proof.
  intros e. split; [reflexivity|].
  destruct (event_size_covers_matched_fields
              (Sample.read_from Sample.kernel_full)
              (Sample.parse_from Sample.formats)
              Sample.name_of Sample.strategy_for
              [Sample.sched_switch_odd] 0 Sample.sched_switch_odd
              Sample.sched_switch_full e
              eq_refl eq_refl eq_refl) as (_ & Hsize & Hall).
  split.
  - apply Hsize. discriminate.
  - eapply Forall_impl; [exact Hall|]. intros f [Hf _]. exact Hf.
Defined.

(** C1 as stated fails on scenario D: the surviving event has size 28, while
    the common extent and the fields it kept give 24. *)
Lemma size_exceeds_kept_fields :
  exists e,
    e ∈ Sample.survivors Sample.kernel_full [Sample.sched_switch_odd] /\
    Event.size e = 28%N /\
    N.max (common_extent
             (Sample.create Sample.kernel_full [Sample.sched_switch_odd]))
          (fields_extent (Event.fields e)) = 24%N /\
    Event.size e
    <> N.max (common_extent
                (Sample.create Sample.kernel_full [Sample.sched_switch_odd]))
             (fields_extent (Event.fields e)).
Proof.
  eexists. split; [rewrite scenario_unsupported_type; by left|].
  split; [reflexivity|]. split; [reflexivity|]. vm_compute. discriminate.
Qed.

(** The amended C2 on [print; sched_switch]. *)
Lemma name_and_id_lookups_agree_witness :
  let table :=
    Sample.create Sample.kernel_full [Sample.print; Sample.sched_switch] in
  (exists E, entry table 42 = Some E /\
             lookupById table (Event.ftrace_event_id E) = Some 42) /\
  lookupByName table "print" = Some 5.
Proof.
  intros table.
  destruct (name_and_id_lookups_agree
              (Sample.read_from Sample.kernel_full)
              (Sample.parse_from Sample.formats)
              Sample.name_of Sample.strategy_for
              [Sample.print; Sample.sched_switch]) as [Hname Hid].
  split.
  - apply (Hname "sched_switch" 42). reflexivity.
  - refine (Hid _ 5%N 5 _ eq_refl eq_refl).
    apply (bool_decide_unpack _). vm_compute. exact I.
Defined.

(** C2 as stated fails in its converse half: with two events called [tick],
    the event reached by id 7 is not the one its own name leads to. *)
Lemma tick_reached_by_id_not_by_name :
  let table :=
    Sample.create Sample.kernel_full [Sample.timer_tick; Sample.sched_tick] in
  exists E,
    lookupById table 7 = Some 7 /\
    entry table 7 = Some E /\
    Event.ftrace_event_id E = 7%N /\
    lookupByName table (Event.name E) = Some 9 /\
    lookupByName table (Event.name E) <> lookupById table 7.
Proof.
  eexists. split; [reflexivity|]. split; [reflexivity|].
  split; [reflexivity|]. split; [reflexivity|]. vm_compute. discriminate.
Qed.

(** C3 on scenario A. *)
Lemma reachable_events_usable_witness :
  let table := Sample.create Sample.kernel_full [Sample.sched_switch] in
  let E := Event.mk "sched_switch" "sched"
             [ Field.mk 8 16 2 "prev_comm" 1 2 2;
               Field.mk 24 4 1 "next_pid" 2 1 1 ] 42 5 28 in
  reachable table 42 /\ entry table 42 = Some E /\
  Event.proto_field_id E <> 0%N /\ Event.ftrace_event_id E <> 0%N.
Proof.
  intros table E.
  assert (reachable table 42) as Hreach by (left; exists 42%N; reflexivity).
  split; [exact Hreach|]. split; [reflexivity|].
  exact (proj2 (proj2 (proj2 (reachable_events_usable
                                (Sample.read_from Sample.kernel_full)
                                (Sample.parse_from Sample.formats)
                                Sample.name_of Sample.strategy_for
                                [Sample.sched_switch]) 42 E eq_refl) Hreach)).
Defined.

(** C4 on an event whose text the parser rejects. *)
Lemma unavailable_event_dropped_witness :
  Sample.parse_from Sample.formats
    (Sample.read_from Sample.kernel_full "sched" "sched_wakeup") = None /\
  Sample.create Sample.kernel_full [Sample.sched_wakeup; Sample.sched_switch]
  = Sample.create Sample.kernel_full [Sample.sched_switch].
Proof.
  split; [reflexivity|].
  exact (proj2 (proj2 (unavailable_event_dropped
                         (Sample.read_from Sample.kernel_full)
                         (Sample.parse_from Sample.formats)
                         Sample.name_of Sample.strategy_for
                         [] Sample.sched_wakeup [Sample.sched_switch]
                         (or_intror eq_refl) eq_refl))).
Defined.

(** The amended C5 on an event none of whose fields survives. *)
Lemma field_drops_keep_event_witness :
  let catalog := [Sample.sched_switch_pid] in
  let e := Event.mk "sched_switch" "sched" [] 42 5 8 in
  Sample.descriptor Sample.kernel_short Sample.sched_switch_pid
  = Some Sample.sched_switch_short /\
  Sample.survivors Sample.kernel_short catalog = [e] /\
  e ∈ Sample.survivors Sample.kernel_short catalog /\
  is_Some (lookupByName (Sample.create Sample.kernel_short catalog)
                        "sched_switch") /\
  is_Some (lookupById (Sample.create Sample.kernel_short catalog) 42).
Proof.
  intros catalog e. split; [reflexivity|]. split; [reflexivity|].
  destruct (field_drops_keep_event
              (Sample.read_from Sample.kernel_short)
              (Sample.parse_from Sample.formats)
              Sample.name_of Sample.strategy_for
              catalog 0 Sample.sched_switch_pid Sample.sched_switch_short
              eq_refl eq_refl)
    as (e' & He' & Hin & _ & _ & _ & _ & Hname & Hid & _); [done|done|].
  injection He' as <-. by repeat split.
Defined.

(** C5 as stated fails in its last clause: the same catalog event loses
    [next_pid] for want of a namesake on one kernel and for want of a
    conversion on the other, keeps the same fields on both, and ends up with
    size 24 on the first and 28 on the second. *)
Lemma drop_causes_differ_in_size :
  let unmatched :=
    Sample.create Sample.kernel_short [Sample.sched_switch_odd] in
  let unsupported :=
    Sample.create Sample.kernel_full [Sample.sched_switch_odd] in
  exists e1 e2,
    entry unmatched 42 = Some e1 /\
    entry unsupported 42 = Some e2 /\
    first_named Sample.name_of "next_pid"
      (FtraceEvent.fields Sample.sched_switch_short) = None /\
    first_named Sample.name_of "next_pid"
      (FtraceEvent.fields Sample.sched_switch_full)
    = Some (Sample.kfield "pid_t next_pid" 24 4) /\
    Sample.strategy_for 1 2 = None /\
    Event.fields e1 = Event.fields e2 /\
    Event.size e1 = 24%N /\ Event.size e2 = 28%N /\
    e1 <> e2.
Proof.
  do 2 eexists. do 8 (split; [reflexivity|]). discriminate.
Qed.

(** C7 on scenario A: [next_pid] sits at the location of the one kernel
    field of that name. *)
Lemma first_namesake_located_witness :
  Sample.descriptor Sample.kernel_full Sample.sched_switch
  = Some Sample.sched_switch_full /\
  Field.mk 24 4 1 "next_pid" 2 1 1
  ∈ Event.fields
      (translate_event (Sample.read_from Sample.kernel_full)
                       (Sample.parse_from Sample.formats)
                       Sample.name_of Sample.strategy_for
                       no_common_fields Sample.sched_switch).2.
Proof.
  split; [reflexivity|].
  apply (first_namesake_located
           (Sample.read_from Sample.kernel_full)
           (Sample.parse_from Sample.formats)
           Sample.name_of Sample.strategy_for
           no_common_fields Sample.sched_switch Sample.sched_switch_full
           (Field.mk 24 4 1 "next_pid" 2 1 1) eq_refl).
  exists (Sample.declared "next_pid" 1 2 1),
         [Sample.kfield "char prev_comm[16]" 8 16],
         (Sample.kfield "pid_t next_pid" 24 4),
         [Sample.kfield "int next_prio" 28 4], 1%N.
  split; [right; left|]. split; [reflexivity|].
  split; [repeat constructor; discriminate|].
  split; [reflexivity|]. split; reflexivity.
Defined.

(** C8 on [print; sched_switch]: 43 slots, and the lookup of id 5. *)
Lemma dense_vector_layout_witness :
  let table :=
    Sample.create Sample.kernel_full [Sample.print; Sample.sched_switch] in
  length (events_ table) = 43 /\
  entry table 7 = Some Event.default /\
  forall E, entry table 5 = Some E -> Event.ftrace_event_id E = 5%N.
Proof.
  intros table.
  destruct (dense_vector_layout
              (Sample.read_from Sample.kernel_full)
              (Sample.parse_from Sample.formats)
              Sample.name_of Sample.strategy_for
              [Sample.print; Sample.sched_switch])
    as (max_id & Hlen & _ & _ & _ & _ & _ & _ & Hunused & Hid).
  split; [reflexivity|]. split.
  - apply Hunused; [vm_compute; lia|]. repeat constructor; discriminate.
  - intros E HE. exact (proj1 (Hid 5%N 5 E eq_refl HE)).
Defined.

(** C9: two format directories that differ outside the catalog, and two
    parsers that differ on a text no catalog event has. *)
Lemma Create_deterministic_witness :
  let catalog := [Sample.print; Sample.sched_switch; Sample.sched_wakeup] in
  let files := ("irq", "softirq_entry", "ID: 11") :: Sample.kernel_full in
  let formats := Sample.formats ++ [("ID: 11", Sample.tick_timer)] in
  Sample.read_from Sample.kernel_full "irq" "softirq_entry"
  <> Sample.read_from files "irq" "softirq_entry" /\
  Create (Sample.read_from Sample.kernel_full)
         (Sample.parse_from Sample.formats)
         Sample.name_of Sample.strategy_for catalog
  = Create (Sample.read_from files) (Sample.parse_from formats)
           Sample.name_of Sample.strategy_for catalog.
Proof.
  intros catalog files formats. split; [discriminate|].
  apply (Create_deterministic
           (Sample.read_from Sample.kernel_full) (Sample.read_from files)
           (Sample.parse_from Sample.formats) (Sample.parse_from formats)
           Sample.name_of Sample.name_of
           Sample.strategy_for Sample.strategy_for
           (fun _ => eq_refl) (fun _ _ => eq_refl) catalog).
  repeat constructor.
Defined.

(** The amended C10 on a kernel that gives [sched_wakeup] the id of
    [sched_switch]: the slot holds [sched_switch], and the name
    [sched_wakeup] leads to it. *)
Lemma colliding_ids_share_slot_witness :
  let catalog := [Sample.sched_wakeup; Sample.sched_switch] in
  let table := Sample.create Sample.kernel_clash catalog in
  let A := Event.mk "sched_wakeup" "sched" [] 42 6 8 in
  let B := Event.mk "sched_switch" "sched"
             [ Field.mk 8 16 2 "prev_comm" 1 2 2;
               Field.mk 24 4 1 "next_pid" 2 1 1 ] 42 5 28 in
  Sample.survivors Sample.kernel_clash catalog = [A; B] /\
  entry table 42 = Some B /\
  lookupById table 42 = Some 42 /\
  lookupByName table "sched_wakeup" = Some 42 /\
  Event.name B <> "sched_wakeup".
Proof.
  intros catalog table A B. split; [reflexivity|].
  destruct (colliding_ids_share_slot
              (Sample.read_from Sample.kernel_clash)
              (Sample.parse_from Sample.formats)
              Sample.name_of Sample.strategy_for
              catalog [] A [] B [] eq_refl eq_refl (Forall_nil_2 _))
    as (Hslot & Hid & Hname).
  split; [exact Hslot|]. split; [exact Hid|].
  apply Hname. repeat constructor. discriminate.
Defined.

(** C10 as stated fails when the colliding events share their name: the
    catalog lists [sched_switch] twice, with different fields; both survive
    with id 42, the slot holds the later one, and the name of the earlier one
    leads to an event of that very name. *)
Lemma same_name_collision :
  let catalog := [Sample.sched_switch; Sample.sched_switch_odd] in
  let table := Sample.create Sample.kernel_full catalog in
  exists A B,
    Sample.survivors Sample.kernel_full catalog = [A; B] /\
    A <> B /\
    Event.ftrace_event_id A = Event.ftrace_event_id B /\
    entry table (N.to_nat (Event.ftrace_event_id B)) = Some B /\
    lookupByName table (Event.name A)
    = Some (N.to_nat (Event.ftrace_event_id B)) /\
    Event.name B = Event.name A.
Proof.
  do 2 eexists. split; [reflexivity|]. split; [discriminate|].
  repeat split.
Qed.

(** * Further properties of the code *)

(** ** What the two indices hold, for any vector of events *)

Lemma last_at_snoc (i : nat) (events : list Event.t) (x : Event.t) :
  last_at i (events ++ [x])
  = if decide (N.to_nat (Event.ftrace_event_id x) = i) then Some x
    else last_at i events.
Proof.
  unfold last_at. rewrite filter_app, last_app, filter_cons, filter_nil.
  by destruct (decide _).
Qed.

Lemma last_named_snoc (name : string) (events : list Event.t) (x : Event.t) :
  last_named name (events ++ [x])
  = if decide (Event.name x = name) then Some x else last_named name events.
Proof.
  unfold last_named. rewrite filter_app, last_app, filter_cons, filter_nil.
  by destruct (decide _).
Qed.

Lemma place_events_last_at (events by_id : list Event.t) (i : nat) :
  Forall (fun e => N.to_nat (Event.ftrace_event_id e) < length by_id) events ->
  place_events events by_id !! i
  = match last_at i events with Some e => Some e | None => by_id !! i end.
Proof.
  induction events as [|x events IH] using rev_ind; intros Hall; [done|].
  apply Forall_app in Hall as [Hall Hx]. inversion Hx as [|? ? Hlt _]; subst.
  rewrite place_events_snoc, last_at_snoc.
  destruct (decide (N.to_nat (Event.ftrace_event_id x) = i)) as [<-|Hne].
  - apply list_lookup_insert_eq. by rewrite place_events_length.
  - rewrite list_lookup_insert_ne by done. by apply IH.
Qed.

(** X1.  [BuildEventsVector], for any vector of events: every slot below the
    length holds the last event of the vector whose id is the slot number,
    and the default event when there is none; slots at or beyond the length
    do not exist; and the id of every event of the vector is a slot. *)
Theorem BuildEventsVector_lookup (events : list Event.t) (i : nat) :
  BuildEventsVector events !! i
  = (if decide (i < length (BuildEventsVector events))
     then Some (default Event.default (last_at i events)) else None) /\
  Forall (fun e => N.to_nat (Event.ftrace_event_id e)
                   < length (BuildEventsVector events)) events.
Proof.
  assert (Forall (fun e => N.to_nat (Event.ftrace_event_id e)
                           < length (BuildEventsVector events)) events)
    as Hrange by (apply Forall_forall, BuildEventsVector_in_range).
  split; [|done].
  destruct (decide (i < length (BuildEventsVector events))) as [Hi|Hi].
  - unfold BuildEventsVector. rewrite place_events_last_at.
    + destruct (last_at i events); [done|]. simpl.
      apply lookup_replicate. split; [done|].
      rewrite BuildEventsVector_length in Hi. lia.
    + rewrite length_replicate. eapply Forall_impl; [exact Hrange|].
      intros e He. rewrite BuildEventsVector_length in He. lia.
  - apply lookup_ge_None. lia.
Qed.

(** X2.  The name index, for any vector of events: a name leads to the slot
    numbered by the id of the last event of that name, and nowhere when no
    event has the name. *)
Theorem index_names_lookup (events : list Event.t) (commons : list Field.t)
    (name : string) :
  name_to_event_ (new_ProtoTranslationTable events commons) !! name
  = (fun e => N.to_nat (Event.ftrace_event_id e)) <$> last_named name events.
Proof.
  simpl. induction events as [|x events IH] using rev_ind; [done|].
  rewrite index_names_snoc, last_named_snoc.
  destruct (decide (Event.name x = name)) as [<-|Hne].
  - by rewrite lookup_insert_eq.
  - by rewrite lookup_insert_ne.
Qed.

(** X3.  The constructor never leaves the vector: for any vector of events,
    every reference stored in the name index designates an existing slot
    (so that [events_.at] of line 135 cannot throw), the dense vector is
    never empty, and [largest_id_] is its last slot number. *)
Theorem name_index_in_bounds (events : list Event.t) (commons : list Field.t) :
  let table := new_ProtoTranslationTable events commons in
  (forall name slot,
      name_to_event_ table !! name = Some slot ->
      slot < length (events_ table) /\ is_Some (events_ table !! slot)) /\
  0 < length (events_ table) /\
  N.to_nat (largest_id_ table) + 1 = length (events_ table).
Proof.
  intros table. split; [|split].
  - intros name slot Hl. simpl in Hl.
    apply index_names_lookup_inv in Hl as (E & HE & _ & <-).
    pose proof (BuildEventsVector_in_range _ _ HE) as Hlt.
    split; [exact Hlt|]. by apply lookup_lt_is_Some.
  - simpl. rewrite BuildEventsVector_length. lia.
  - simpl. rewrite BuildEventsVector_length. lia.
Qed.

Lemma name_index_in_bounds_witness :
  let table :=
    Sample.create Sample.kernel_full [Sample.print; Sample.sched_switch] in
  name_to_event_ table !! "print" = Some 5 /\
  5 < length (events_ table) /\ is_Some (events_ table !! 5).
Proof.
  intros table. split; [reflexivity|].
  exact (proj1 (name_index_in_bounds
                  (Sample.survivors Sample.kernel_full
                     [Sample.print; Sample.sched_switch]) _)
               "print" 5 eq_refl).
Defined.

(** ** What the builder keeps and what it leaves alone *)

Lemma List_filter_sublist {A : Type} (f : A -> bool) (l : list A) :
  List.filter f l `sublist_of` l.
Proof.
  induction l as [|x l IH]; simpl; [done|].
  destruct (f x); [by apply sublist_skip|by apply sublist_cons].
Qed.

Lemma omap_sublist {A B : Type} (f : A -> option A) (g : A -> B)
    (l : list A) :
  (forall x y, f x = Some y -> g y = g x) ->
  g <$> omap f l `sublist_of` g <$> l.
Proof.
  intros Hf. induction l as [|x l IH]; simpl; [done|].
  destruct (f x) as [y|] eqn:Hx; simpl.
  - rewrite (Hf _ _ Hx). by apply sublist_skip.
  - by apply sublist_cons.
Qed.

Section Preservation.

Variable ReadEventFormat : string -> string -> string.
Variable ParseFtraceEvent : string -> option FtraceEvent.t.
Variable GetNameFromTypeAndName : string -> string.
Variable SetTranslationStrategy : N -> N -> option N.

Local Abbreviation descriptor :=
  (read_descriptor ReadEventFormat ParseFtraceEvent).
Local Abbreviation step :=
  (translate_event ReadEventFormat ParseFtraceEvent
                   GetNameFromTypeAndName SetTranslationStrategy).
Local Abbreviation loop :=
  (translate_events ReadEventFormat ParseFtraceEvent
                    GetNameFromTypeAndName SetTranslationStrategy).
Local Abbreviation survivors :=
  (surviving_events ReadEventFormat ParseFtraceEvent
                    GetNameFromTypeAndName SetTranslationStrategy).
Local Abbreviation create :=
  (Create ReadEventFormat ParseFtraceEvent
          GetNameFromTypeAndName SetTranslationStrategy).
Local Abbreviation resolved :=
  (resolved GetNameFromTypeAndName SetTranslationStrategy).

Lemma translate_event_identity st event :
  event_identity (step st event).2 = event_identity event.
Proof.
  destruct (descriptor event) as [d|] eqn:Hd.
  - by rewrite (translate_event_parsed _ _ _ _ _ _ _ Hd).
  - by rewrite (translate_event_unavailable _ _ _ _ _ _ Hd).
Qed.

Lemma translate_events_identity st catalog :
  event_identity <$> (loop st catalog).2 = event_identity <$> catalog.
Proof.
  revert st. induction catalog as [|ev catalog IH]; intros st; [done|].
  rewrite translate_events_cons. cbn [snd]. rewrite !fmap_cons.
  by rewrite translate_event_identity, IH.
Qed.

(** X4.  The events handed to the table are catalog events in catalog order:
    their names, groups and target ids form a subsequence of those of the
    catalog.  [Create] invents no event, reorders none and renames none. *)
Theorem survivors_in_catalog_order catalog :
  event_identity <$> survivors catalog `sublist_of` event_identity <$> catalog.
Proof.
  rewrite <- (translate_events_identity no_common_fields catalog).
  apply fmap_sublist. unfold surviving_events. apply List_filter_sublist.
Qed.

Lemma resolved_identity ks f f' :
  resolved ks f = Some f' -> field_identity f' = field_identity f.
Proof.
  unfold resolved, located.
  destruct (first_named _ _ _) as [k|]; [|done]. simpl.
  destruct (SetTranslationStrategy _ _) as [s|]; [|done].
  by intros [= <-].
Qed.

(** X5.  The fields of a translated event are declared fields in declared
    order: their kernel names, kernel types, target ids and target types form
    a subsequence of those the catalog declares for the event.  The erasing
    loop of lines 70-102 skips no field it should visit, visits none twice
    and changes nothing but offset, size and strategy. *)
Theorem kept_fields_in_declared_order st event :
  field_identity <$> Event.fields (step st event).2
  `sublist_of` field_identity <$> Event.fields event.
Proof.
  destruct (descriptor event) as [d|] eqn:Hd.
  - rewrite (translate_event_parsed _ _ _ _ _ _ _ Hd). simpl.
    unfold kept_fields. apply omap_sublist. apply resolved_identity.
  - by rewrite (translate_event_unavailable _ _ _ _ _ _ Hd).
Qed.

(** X6.  What follows in the catalog never changes what came before: the
    events that survive from a catalog survive unchanged, and first, from any
    extension of it. *)
Theorem survivors_prefix l1 l2 :
  survivors l1 `prefix_of` survivors (l1 ++ l2).
Proof.
  unfold surviving_events. rewrite translate_events_app. cbn [snd].
  rewrite List.filter_app. by eexists.
Qed.

Lemma unavailable_catalog st catalog :
  Forall (fun ev => descriptor ev = None) catalog ->
  loop st catalog = (st, catalog).
Proof.
  intros Hall. revert st.
  induction Hall as [|ev catalog Hev _ IH]; intros st; [done|].
  rewrite translate_events_cons.
  by rewrite (translate_event_unavailable _ _ _ _ _ _ Hev), IH.
Qed.

(** X7.  On a kernel that has none of the catalog's events (each one without
    text or with text the parser rejects, and with the zero kernel id the
    builder expects), [Create] still returns a table: one slot holding the
    default event, [largest_id_] zero, no common field, an empty name index;
    every lookup by id or by name is empty. *)
Theorem nothing_available catalog :
  Forall (fun ev => descriptor ev = None /\ Event.ftrace_event_id ev = 0%N)
         catalog ->
  create catalog = mkTable [Event.default] 0 [] ∅ /\
  (forall id, lookupById (create catalog) id = None) /\
  (forall name, lookupByName (create catalog) name = None).
Proof.
  intros Hall.
  assert (create catalog = mkTable [Event.default] 0 [] ∅) as Heq.
  { unfold Create, surviving_events.
    rewrite unavailable_catalog
      by (eapply Forall_impl; [exact Hall|]; by intros ev [? _]).
    cbn [fst snd].
    replace (List.filter (fun event => negb (unusable event)) catalog)
      with (@nil Event.t); [done|].
    symmetry. clear -Hall.
    induction Hall as [|ev catalog [_ Hid] _ IH]; [done|]. simpl.
    unfold unusable at 1. rewrite Hid, orb_true_r. exact IH. }
  split; [exact Heq|]. rewrite Heq. split.
  - intros id. unfold lookupById. simpl.
    destruct (N.to_nat id) as [|n]; [done|]. done.
  - intros name. unfold lookupByName. simpl. apply lookup_empty.
Qed.

(** X8.  Slot 0 of a table built by [Create] always exists and always holds
    the default event: no surviving event has the kernel id 0, so the lookup
    of id 0 is empty whatever the catalog and the kernel. *)
Theorem slot_zero_unused catalog :
  entry (create catalog) 0 = Some Event.default /\
  lookupById (create catalog) 0 = None.
Proof.
  assert (entry (create catalog) 0 = Some Event.default) as H0.
  { apply BuildEventsVector_unused.
    - rewrite BuildEventsVector_length. lia.
    - pose proof (surviving_events_usable ReadEventFormat ParseFtraceEvent
                    GetNameFromTypeAndName SetTranslationStrategy catalog)
        as Hall.
      eapply Forall_impl; [exact Hall|]. intros e [_ Hid]. lia. }
  split; [exact H0|]. unfold lookupById. change (N.to_nat 0) with 0.
  unfold entry in H0. by rewrite H0.
Qed.

End Preservation.

(** ** Common fields, sizes and sixteen bits *)

Section Sizes.

Variable ReadEventFormat : string -> string -> string.
Variable ParseFtraceEvent : string -> option FtraceEvent.t.
Variable GetNameFromTypeAndName : string -> string.
Variable SetTranslationStrategy : N -> N -> option N.

Local Abbreviation descriptor :=
  (read_descriptor ReadEventFormat ParseFtraceEvent).
Local Abbreviation loop :=
  (translate_events ReadEventFormat ParseFtraceEvent
                    GetNameFromTypeAndName SetTranslationStrategy).
Local Abbreviation survivors :=
  (surviving_events ReadEventFormat ParseFtraceEvent
                    GetNameFromTypeAndName SetTranslationStrategy).
Local Abbreviation create :=
  (Create ReadEventFormat ParseFtraceEvent
          GetNameFromTypeAndName SetTranslationStrategy).
Local Abbreviation resolved :=
  (resolved GetNameFromTypeAndName SetTranslationStrategy).

(** X9.  The common fields of the table are those of one descriptor, never a
    mixture: none when no descriptor read for the catalog lists a common
    field; otherwise one [Field] per common field of the first descriptor
    that lists any, in its order, with that field's 16-bit offset and size
    and every other member zero, whatever events come later. *)
Theorem common_fields_origin catalog :
  (Forall (fun ev => forall d, descriptor ev = Some d ->
                               FtraceEvent.common_fields d = []) catalog ->
   common_fields_ (create catalog) = []) /\
  (forall l1 ev l2 d,
      catalog = l1 ++ ev :: l2 ->
      Forall (fun ev => forall d, descriptor ev = Some d ->
                                  FtraceEvent.common_fields d = []) l1 ->
      descriptor ev = Some d ->
      FtraceEvent.common_fields d <> [] ->
      common_fields_ (create catalog)
      = map common_of (FtraceEvent.common_fields d) /\
      common_fields_ (create catalog) = common_fields_ (create (l1 ++ [ev]))).
Proof.
  split.
  - intros Hall. unfold Create. simpl. by rewrite (capture_pending _ _ _ _ _ Hall).
  - intros l1 ev l2 d -> Hl1 Hd Hne.
    by rewrite !(common_fields_of_first_nonempty _ _ _ _ l1 ev _ d Hl1 Hd Hne).
Qed.

Lemma resolved_sixteen_bits ks f f' :
  resolved ks f = Some f' ->
  (Field.ftrace_offset f' < 65536)%N /\ (Field.ftrace_size f' < 65536)%N.
Proof.
  unfold resolved, located.
  destruct (first_named _ _ _) as [k|]; [|done]. simpl.
  destruct (SetTranslationStrategy _ _) as [s|]; [|done].
  intros [= <-]. simpl. split; apply to_u16_lt.
Qed.

(** X10.  Sizes stay within sixteen bits: the size of a translated event, and
    the offset and the size of each field it keeps, are below 65536.  A kept
    field whose offset and size add up to 65536 or more therefore ends beyond
    the size of its event: the sum wrapped in [std::max<uint16_t>]. *)
Theorem sizes_fit_sixteen_bits catalog i ev d e :
  catalog !! i = Some ev ->
  descriptor ev = Some d ->
  (loop no_common_fields catalog).2 !! i = Some e ->
  (Event.size e < 65536)%N /\
  Forall (fun f =>
            (Field.ftrace_offset f < 65536)%N /\
            (Field.ftrace_size f < 65536)%N /\
            ((65536 <= Field.ftrace_offset f + Field.ftrace_size f)%N ->
             (Event.size e < Field.ftrace_offset f + Field.ftrace_size f)%N))
         (Event.fields e).
Proof.
  intros Hi Hd He.
  destruct (translated_parsed ReadEventFormat ParseFtraceEvent
                GetNameFromTypeAndName SetTranslationStrategy _ _ _ _ Hi Hd) as (He' & Hcons & _).
  rewrite He in He'. injection He' as ->. simpl.
  assert (N.max (fields_extent
                   (name_matched_fields GetNameFromTypeAndName
                      (FtraceEvent.fields d) (Event.fields ev)))
                (common_fields_end
                   (after_capture
                      (loop no_common_fields (take i catalog)).1 d))
          < 65536)%N as Hsize.
  { rewrite Hcons.
    pose proof (fields_extent_lt
                  (name_matched_fields GetNameFromTypeAndName
                     (FtraceEvent.fields d) (Event.fields ev))).
    pose proof (fields_extent_lt
                  (common_fields
                     (after_capture
                        (loop no_common_fields (take i catalog)).1 d))).
    lia. }
  split; [exact Hsize|].
  apply Forall_forall. intros f Hf.
  apply list_elem_of_omap in Hf as (f0 & _ & Hres).
  destruct (resolved_sixteen_bits _ _ _ Hres) as [Ho Hs].
  split; [done|]. split; [done|]. lia.
Qed.

(** X11.  An event that the post-pass filter removes, for a zero kernel id in
    its descriptor or a zero target id in the catalog, has been translated
    all the same: when its descriptor is the first to list common fields,
    these become the common fields of a table in which the event is not. *)
Theorem dropped_event_still_captures l1 ev l2 d :
  Forall (fun ev => forall d, descriptor ev = Some d ->
                              FtraceEvent.common_fields d = []) l1 ->
  descriptor ev = Some d ->
  FtraceEvent.common_fields d <> [] ->
  FtraceEvent.id d = 0%N \/ Event.proto_field_id ev = 0%N ->
  exists e,
    (loop no_common_fields (l1 ++ ev :: l2)).2 !! length l1 = Some e /\
    (e ∉ survivors (l1 ++ ev :: l2)) /\
    common_fields_ (create (l1 ++ ev :: l2))
    = map common_of (FtraceEvent.common_fields d).
Proof.
  intros Hl1 Hd Hne Hzero.
  assert ((l1 ++ ev :: l2) !! length l1 = Some ev) as Hi
    by (by rewrite list_lookup_middle).
  destruct (translated_parsed ReadEventFormat ParseFtraceEvent
                GetNameFromTypeAndName SetTranslationStrategy _ _ _ _ Hi Hd) as (He & _ & _).
  eexists. split; [exact He|]. split.
  - intros Hin. apply surviving_events_elem in Hin as [_ [Hp Hid]].
    simpl in Hp, Hid. by destruct Hzero.
  - by apply common_fields_of_first_nonempty.
Qed.

End Sizes.

(** ** The kernel's types *)

Section KernelTypes.

Variable ReadEventFormat : string -> string -> string.
Variables Parse1 Parse2 : string -> option FtraceEvent.t.
Variable GetNameFromTypeAndName : string -> string.
Variable SetTranslationStrategy : N -> N -> option N.

Local Abbreviation scan :=
  (scan_ftrace_fields GetNameFromTypeAndName SetTranslationStrategy).
Local Abbreviation merge :=
  (merge_fields GetNameFromTypeAndName SetTranslationStrategy).
Local Abbreviation same_place := (same_place GetNameFromTypeAndName).

Lemma scan_ftrace_fields_same_place ks1 ks2 field fields_end :
  Forall2 same_place ks1 ks2 ->
  scan ks1 field fields_end = scan ks2 field fields_end.
Proof.
  induction 1 as [|k1 k2 ks1 ks2 (Hn & Ho & Hs) _ IH]; simpl; [done|].
  by rewrite Hn, Ho, Hs, IH.
Qed.

Lemma merge_fields_same_place ks1 ks2 fields fields_end :
  Forall2 same_place ks1 ks2 ->
  merge ks1 fields fields_end = merge ks2 fields fields_end.
Proof.
  intros Hks. revert fields_end.
  induction fields as [|f fields IH]; intros fe; simpl; [done|].
  rewrite (scan_ftrace_fields_same_place _ _ _ _ Hks).
  destruct (scan ks2 f fe) as [[f' fe'] ok]. by rewrite IH.
Qed.

Lemma capture_common_fields_same_place st cs1 cs2 :
  Forall2 (fun k1 k2 =>
             FtraceEvent.Field.offset k1 = FtraceEvent.Field.offset k2 /\
             FtraceEvent.Field.size k1 = FtraceEvent.Field.size k2) cs1 cs2 ->
  capture_common_fields st cs1 = capture_common_fields st cs2.
Proof.
  intros Hcs. revert st. unfold capture_common_fields.
  induction Hcs as [|k1 k2 cs1 cs2 (Ho & Hs) _ IH]; intros st; simpl; [done|].
  by rewrite Ho, Hs, IH.
Qed.

(** X12.  [Create] never looks at the type the kernel reports for a field:
    two descriptors of the same id whose fields agree, one by one, on the
    name extracted from [type_and_name], on the offset and on the size give
    the same translation of the event and the same captured common fields.
    The conversion is chosen from the catalog's [ftrace_type] alone (line
    93, and the TODO of line 86). *)
Theorem kernel_types_ignored st event d1 d2 :
  ReadEventFormat (Event.group event) (Event.name event) <> EmptyString ->
  Parse1 (ReadEventFormat (Event.group event) (Event.name event)) = Some d1 ->
  Parse2 (ReadEventFormat (Event.group event) (Event.name event)) = Some d2 ->
  same_layout GetNameFromTypeAndName d1 d2 ->
  translate_event ReadEventFormat Parse1
                  GetNameFromTypeAndName SetTranslationStrategy st event
  = translate_event ReadEventFormat Parse2
                    GetNameFromTypeAndName SetTranslationStrategy st event.
Proof.
  intros Htext H1 H2 (Hid & Hcommon & Hfields).
  unfold translate_event, read_descriptor.
  apply String.eqb_neq in Htext. rewrite Htext, H1, H2.
  rewrite (merge_fields_same_place _ _ _ _ Hfields).
  unfold after_capture.
  by rewrite (capture_common_fields_same_place _ _ _ Hcommon), Hid.
Qed.

End KernelTypes.

Lemma nothing_available_witness :
  let catalog := [Sample.print; Sample.timer_tick] in
  Sample.descriptor Sample.kernel_short Sample.print = None /\
  Sample.descriptor Sample.kernel_short Sample.timer_tick = None /\
  Sample.create Sample.kernel_short catalog = mkTable [Event.default] 0 [] ∅.
Proof.
  intros catalog. split; [reflexivity|]. split; [reflexivity|].
  apply (nothing_available
           (Sample.read_from Sample.kernel_short)
           (Sample.parse_from Sample.formats)
           Sample.name_of Sample.strategy_for catalog).
  repeat constructor.
Defined.

(** X10 on a field at offset 65532 of size 8: its end, 65540, wraps to 4 and
    the event is given the size of its header. *)
Lemma sizes_fit_sixteen_bits_witness :
  let e := Event.mk "print" "ftrace"
             [ Field.mk 65532 8 2 "buf" 1 2 2 ] 11 3 8 in
  read_descriptor (Sample.read_from Sample.kernel_edge)
                  (Sample.parse_from Sample.formats_edge) Sample.print
  = Some Sample.far_field /\
  (Event.size e < 65536)%N /\
  Forall (fun f =>
            (Event.size e < Field.ftrace_offset f + Field.ftrace_size f)%N)
         (Event.fields e).
Proof.
  intros e. split; [reflexivity|].
  destruct (sizes_fit_sixteen_bits
              (Sample.read_from Sample.kernel_edge)
              (Sample.parse_from Sample.formats_edge)
              Sample.name_of Sample.strategy_for
              [Sample.print] 0 Sample.print Sample.far_field e
              eq_refl eq_refl eq_refl) as [Hsize Hall].
  split; [exact Hsize|]. unfold e in *. simpl in *.
  apply Forall_cons in Hall as [(_ & _ & Hbuf) _].
  constructor; [|constructor]. apply Hbuf. vm_compute. discriminate.
Defined.

(** X9 on [print; sched_switch]: [print] lists no common field, so the
    table has the four of [sched_switch]. *)
Lemma common_fields_origin_witness :
  common_fields_
    (Sample.create Sample.kernel_full [Sample.print; Sample.sched_switch])
  = map common_of Sample.header.
Proof.
  refine (proj1 (proj2 (common_fields_origin
                          (Sample.read_from Sample.kernel_full)
                          (Sample.parse_from Sample.formats)
                          Sample.name_of Sample.strategy_for
                          [Sample.print; Sample.sched_switch])
                       [Sample.print] Sample.sched_switch []
                       Sample.sched_switch_full eq_refl _ eq_refl _)).
  - constructor; [|constructor]. intros d Hd. injection Hd as <-. reflexivity.
  - discriminate.
Defined.

(** X11 on a format with the id 0: [tick] is not in the table, the header of
    its format is. *)
Lemma dropped_event_still_captures_witness :
  let catalog := [Sample.timer_tick; Sample.sched_switch] in
  let table :=
    Create (Sample.read_from Sample.kernel_edge)
           (Sample.parse_from Sample.formats_edge)
           Sample.name_of Sample.strategy_for catalog in
  read_descriptor (Sample.read_from Sample.kernel_edge)
                  (Sample.parse_from Sample.formats_edge) Sample.timer_tick
  = Some Sample.id_zero /\
  lookupByName table "tick" = None /\
  common_fields_ table = map common_of Sample.header.
Proof.
  intros catalog table. split; [reflexivity|]. split; [reflexivity|].
  destruct (dropped_event_still_captures
              (Sample.read_from Sample.kernel_edge)
              (Sample.parse_from Sample.formats_edge)
              Sample.name_of Sample.strategy_for
              [] Sample.timer_tick [Sample.sched_switch] Sample.id_zero
              (Forall_nil_2 _) eq_refl)
    as (e & _ & _ & Hcommon); [discriminate|by left|].
  exact Hcommon.
Defined.

(** X12 on [sched_switch] described with two sets of C types. *)
Lemma kernel_types_ignored_witness :
  Sample.sched_switch_full <> Sample.sched_switch_retyped /\
  translate_event (Sample.read_from Sample.kernel_full)
                  (Sample.parse_from Sample.formats)
                  Sample.name_of Sample.strategy_for
                  no_common_fields Sample.sched_switch
  = translate_event (Sample.read_from Sample.kernel_full)
                    (Sample.parse_from Sample.formats_edge)
                    Sample.name_of Sample.strategy_for
                    no_common_fields Sample.sched_switch.
Proof.
  split; [discriminate|].
  apply (kernel_types_ignored
           (Sample.read_from Sample.kernel_full)
           (Sample.parse_from Sample.formats)
           (Sample.parse_from Sample.formats_edge)
           Sample.name_of Sample.strategy_for
           no_common_fields Sample.sched_switch
           Sample.sched_switch_full Sample.sched_switch_retyped);
    [discriminate|reflexivity|reflexivity|].
  split; [reflexivity|]. split; repeat constructor.
Defined.

(** ** The order of the catalog *)

Lemma filter_key_unique {A K : Type} `{EqDecision K} (f : A -> K) (k : K)
    (l l' : list A) :
  l ≡ₚ l' -> NoDup (f <$> l) ->
  filter (fun x => f x = k) l = filter (fun x => f x = k) l'.
Proof.
  intros Hperm Hnd.
  assert (filter (fun x => f x = k) l ≡ₚ filter (fun x => f x = k) l') as Hf
    by (by apply filter_Permutation).
  assert (NoDup (f <$> filter (fun x => f x = k) l)) as Hnd'.
  { eapply sublist_NoDup; [exact Hnd|]. apply fmap_sublist, sublist_filter. }
  assert (Forall (fun x => f x = k) (filter (fun x => f x = k) l)) as Hall.
  { apply Forall_forall. intros x Hx. by apply list_elem_of_filter in Hx as [? _]. }
  destruct (filter (fun x => f x = k) l) as [|a [|b t]].
  - by apply Permutation_nil_l in Hf.
  - by apply Permutation_singleton_l in Hf.
  - exfalso. apply Forall_cons in Hall as [Ha Hall].
    apply Forall_cons in Hall as [Hb _].
    rewrite !fmap_cons in Hnd'. apply NoDup_cons in Hnd' as [Hnotin _].
    apply Hnotin. rewrite Ha, <- Hb. by left.
Qed.

Lemma List_filter_Permutation {A : Type} (f : A -> bool) (l l' : list A) :
  l ≡ₚ l' -> List.filter f l ≡ₚ List.filter f l'.
Proof.
  induction 1 as [|x l l' _ IH|x y l|l l' l'' _ IH1 _ IH2]; simpl.
  - done.
  - destruct (f x); [by constructor|done].
  - destruct (f x), (f y); try done. apply perm_swap.
  - by etrans.
Qed.

Lemma largest_id_of_Permutation (events events' : list Event.t) :
  events ≡ₚ events' -> largest_id_of events = largest_id_of events'.
Proof.
  intros Hperm.
  destruct events as [|e events].
  { by apply Permutation_nil_l in Hperm as <-. }
  destruct events' as [|e' events'].
  { by apply Permutation_nil_r in Hperm. }
  destruct (largest_id_of_attained (e :: events)) as (a & Ha & Heq); [done|].
  destruct (largest_id_of_attained (e' :: events')) as (b & Hb & Heq');
    [done|].
  rewrite Hperm in Ha. rewrite <- Hperm in Hb.
  pose proof (largest_id_of_ge _ _ Ha). pose proof (largest_id_of_ge _ _ Hb).
  lia.
Qed.

Lemma last_at_Permutation (events events' : list Event.t) (i : nat) :
  events ≡ₚ events' ->
  NoDup (Event.ftrace_event_id <$> events) ->
  last_at i events = last_at i events'.
Proof.
  intros Hperm Hnd. unfold last_at. f_equal.
  apply (filter_key_unique (fun e => N.to_nat (Event.ftrace_event_id e)));
    [done|].
  rewrite (list_fmap_compose Event.ftrace_event_id N.to_nat).
  apply NoDup_fmap_2; [|done]. intros a b. apply N2Nat.inj.
Qed.

Lemma BuildEventsVector_Permutation (events events' : list Event.t) :
  events ≡ₚ events' ->
  NoDup (Event.ftrace_event_id <$> events) ->
  BuildEventsVector events = BuildEventsVector events'.
Proof.
  intros Hperm Hnd.
  assert (length (BuildEventsVector events)
          = length (BuildEventsVector events')) as Hlen
    by (by rewrite !BuildEventsVector_length,
             (largest_id_of_Permutation _ _ Hperm)).
  apply list_eq. intros i.
  destruct (decide (i < length (BuildEventsVector events))) as [Hi|Hi].
  - assert (forall l : list Event.t,
               Forall (fun e => N.to_nat (Event.ftrace_event_id e)
                                < length (replicate
                                            (N.to_nat (largest_id_of l + 1))
                                            Event.default)) l) as Hrange.
    { intros l. rewrite length_replicate. apply Forall_forall. intros e He.
      pose proof (largest_id_of_ge _ _ He). lia. }
    unfold BuildEventsVector.
    rewrite (place_events_last_at _ _ _ (Hrange events)),
      (place_events_last_at _ _ _ (Hrange events')).
    by rewrite (largest_id_of_Permutation _ _ Hperm),
         (last_at_Permutation _ _ _ Hperm Hnd).
  - rewrite !lookup_ge_None_2; [done|lia|lia].
Qed.

Lemma index_names_last_named (events : list Event.t) (name : string) :
  index_names events !! name
  = (fun e => N.to_nat (Event.ftrace_event_id e)) <$> last_named name events.
Proof.
  induction events as [|x events IH] using rev_ind; [done|].
  rewrite index_names_snoc, last_named_snoc.
  destruct (decide (Event.name x = name)) as [<-|Hne].
  - by rewrite lookup_insert_eq.
  - by rewrite lookup_insert_ne.
Qed.

Lemma index_names_Permutation (events events' : list Event.t) :
  events ≡ₚ events' ->
  NoDup (Event.name <$> events) ->
  index_names events = index_names events'.
Proof.
  intros Hperm Hnd. apply map_eq. intros name.
  rewrite !index_names_last_named. unfold last_named.
  by rewrite (filter_key_unique Event.name name _ _ Hperm Hnd).
Qed.

Section CatalogOrder.

Variable ReadEventFormat : string -> string -> string.
Variable ParseFtraceEvent : string -> option FtraceEvent.t.
Variable GetNameFromTypeAndName : string -> string.
Variable SetTranslationStrategy : N -> N -> option N.

(** The common fields every descriptor of the kernel lists. *)
Variable commons : list FtraceEvent.Field.t.

Local Abbreviation descriptor :=
  (read_descriptor ReadEventFormat ParseFtraceEvent).
Local Abbreviation step :=
  (translate_event ReadEventFormat ParseFtraceEvent
                   GetNameFromTypeAndName SetTranslationStrategy).
Local Abbreviation loop :=
  (translate_events ReadEventFormat ParseFtraceEvent
                    GetNameFromTypeAndName SetTranslationStrategy).
Local Abbreviation survivors :=
  (surviving_events ReadEventFormat ParseFtraceEvent
                    GetNameFromTypeAndName SetTranslationStrategy).
Local Abbreviation create :=
  (Create ReadEventFormat ParseFtraceEvent
          GetNameFromTypeAndName SetTranslationStrategy).
Local Abbreviation captured :=
  (capture_common_fields no_common_fields commons).
Local Abbreviation uniform :=
  (fun ev : Event.t =>
     forall d, descriptor ev = Some d -> FtraceEvent.common_fields d = commons).
Local Abbreviation parsed :=
  (fun ev : Event.t => is_Some (descriptor ev)).

Lemma after_capture_uniform st d :
  st = no_common_fields \/ st = captured ->
  FtraceEvent.common_fields d = commons ->
  after_capture st d = captured.
Proof.
  intros [->| ->] Hd; unfold after_capture; rewrite Hd; [done|].
  destruct (common_fields captured) as [|c cs] eqn:Hc; [|done].
  rewrite capture_common_fields_list in Hc. simpl in Hc.
  by destruct commons.
Qed.

Lemma translate_event_uniform st ev :
  st = no_common_fields \/ st = captured ->
  uniform ev ->
  (step st ev).2 = (step captured ev).2 /\
  (step st ev).1 = (if decide (parsed ev) then captured else st).
Proof.
  intros Hst Hev. destruct (decide (parsed ev)) as [[d Hd]|Hn].
  - rewrite !(translate_event_parsed _ _ _ _ _ _ _ Hd). cbn [fst snd].
    by rewrite !after_capture_uniform by (auto; by apply Hev).
  - assert (descriptor ev = None) as Hd.
    { destruct (read_descriptor _ _ ev) as [d|] eqn:Hd; [|done].
      destruct Hn. by exists d. }
    by rewrite !(translate_event_unavailable _ _ _ _ _ _ Hd).
Qed.

Lemma translate_events_uniform st catalog :
  st = no_common_fields \/ st = captured ->
  Forall uniform catalog ->
  (loop st catalog).2 = (fun ev => (step captured ev).2) <$> catalog /\
  (loop st catalog).1
  = (if decide (Exists parsed catalog) then captured else st).
Proof.
  intros Hst Hall. revert st Hst.
  induction Hall as [|ev catalog Hev _ IH]; intros st Hst.
  - split; [done|].
    destruct (decide (Exists parsed [])) as [Hex|]; [|done].
    by inversion Hex.
  - rewrite translate_events_cons. cbn [fst snd].
    destruct (translate_event_uniform st ev Hst Hev) as [He Hst'].
    assert ((step st ev).1 = no_common_fields \/ (step st ev).1 = captured)
      as Hnext.
    { rewrite Hst'. destruct (decide (parsed ev)); [by right|done]. }
    destruct (IH _ Hnext) as [Hrest Hfinal].
    split; [by rewrite fmap_cons, He, Hrest|].
    rewrite Hfinal, Hst'.
    destruct (decide (Exists parsed catalog)) as [Hex|Hnex].
    + destruct (decide (Exists parsed (ev :: catalog))) as [|Hn]; [done|].
      destruct Hn. by right.
    + destruct (decide (parsed ev)) as [Hp|Hnp].
      * destruct (decide (Exists parsed (ev :: catalog))) as [|Hn]; [done|].
        destruct Hn. by left.
      * destruct (decide (Exists parsed (ev :: catalog))) as [Hex|]; [|done].
        by inversion Hex.
Qed.

(** X13.  When every descriptor of the kernel lists the same common fields,
    and the events that survive have pairwise distinct kernel ids and
    pairwise distinct names, the table does not depend on the order of the
    catalog: a catalog and any permutation of it build the same table. *)
Theorem catalog_order_irrelevant catalog catalog' :
  catalog ≡ₚ catalog' ->
  Forall (fun ev => forall d, descriptor ev = Some d ->
                              FtraceEvent.common_fields d = commons) catalog ->
  NoDup (Event.ftrace_event_id <$> survivors catalog) ->
  NoDup (Event.name <$> survivors catalog) ->
  create catalog = create catalog'.
Proof.
  intros Hperm Hall Hids Hnames.
  assert (Forall uniform catalog') as Hall' by (by rewrite <- Hperm).
  destruct (translate_events_uniform no_common_fields catalog
              (or_introl eq_refl) Hall) as [Hout Hst].
  destruct (translate_events_uniform no_common_fields catalog'
              (or_introl eq_refl) Hall') as [Hout' Hst'].
  assert (survivors catalog ≡ₚ survivors catalog') as Hsurv.
  { unfold surviving_events. rewrite Hout, Hout'.
    apply List_filter_Permutation. by apply fmap_Permutation. }
  unfold Create, new_ProtoTranslationTable.
  fold (survivors catalog) (survivors catalog').
  rewrite (BuildEventsVector_Permutation _ _ Hsurv Hids),
    (index_names_Permutation _ _ Hsurv Hnames), Hst, Hst'.
  f_equal. f_equal.
  destruct (decide (Exists parsed catalog)) as [Hex|Hnex];
    destruct (decide (Exists parsed catalog')) as [Hex'|Hnex']; try done.
  - destruct Hnex'. by rewrite <- Hperm.
  - destruct Hnex. by rewrite Hperm.
Qed.

End CatalogOrder.

(** X13 on scenario A's kernel: [print] has no common field in the sample
    formats, so the two events of the header-bearing formats are taken. *)
Lemma catalog_order_irrelevant_witness :
  Sample.create Sample.kernel_full [Sample.sched_switch; Sample.timer_tick]
  = Sample.create Sample.kernel_full [Sample.timer_tick; Sample.sched_switch].
Proof.
  apply (catalog_order_irrelevant
           (Sample.read_from Sample.kernel_full)
           (Sample.parse_from Sample.formats)
           Sample.name_of Sample.strategy_for Sample.header
           [Sample.sched_switch; Sample.timer_tick]
           [Sample.timer_tick; Sample.sched_switch]).
  - apply perm_swap.
  - constructor; [|constructor; [|constructor]];
      intros d Hd; injection Hd as <-; reflexivity.
  - apply (bool_decide_unpack _). vm_compute. exact I.
  - apply (bool_decide_unpack _). vm_compute. exact I.
Defined.
